(** * The signalling relay: rooms, presence and addressed delivery

    A shallow embedding of the relay's connection/room state machine,
    [SignalHub] in [src/worker.js], and the proofs of its registry
    invariants. The Node server of the repository has the same
    [roomKey], [validChannelName], [normalizeDisplayName],
    [normalizePresenceStatus], [normalizeMeta], [roomUsedNames],
    [uniqueName], [relayPeerMeta] and [leaveRoom] as module-level
    functions and the bodies of [handleFirstJoin], [handleSetMeta] and
    [handleJoinedClientMessage] inline in its message listener; it
    differs in creating the client entry when the join is accepted
    rather than when the socket is. *)

From Stdlib Require Import ZArith QArith Qround String Ascii List.
From stdpp Require Import base gmap strings list pretty.

Set Warnings "-register-all,-abstract-large-number".

Local Open Scope string_scope.
Local Open Scope list_scope.

(** ** Strings

    A JS string is modelled as a [string] whose characters are the code
    points 0..255 (one UTF-16 code unit each). *)

Definition code (c : ascii) : N := N_of_ascii c.

Definition in_range (lo hi : N) (c : ascii) : bool :=
  ((lo <=? code c) && (code c <=? hi))%N.

(** [\s] of a JS regular expression, and the characters [trim] strips,
    restricted to code points below 256: TAB, LF, VT, FF, CR, SP, NBSP. *)
Definition is_whitespace (c : ascii) : bool :=
  in_range 9 13 c || (code c =? 32)%N || (code c =? 160)%N.

(** The character class [[a-zA-Z0-9_-]]. *)
Definition is_channel_char (c : ascii) : bool :=
  in_range 97 122 c || in_range 65 90 c || in_range 48 57 c
  || (code c =? 95)%N || (code c =? 45)%N.

Fixpoint all_chars (p : ascii → bool) (s : string) : bool :=
  match s with
  | EmptyString => true
  | String c r => p c && all_chars p r
  end.

(** [String.prototype.toLowerCase] on code points below 256: A-Z and the
    Latin-1 capitals (U+00C0..U+00DE except the multiplication sign). *)
Definition lower_char (c : ascii) : ascii :=
  if in_range 65 90 c
     || (in_range 192 222 c && negb (code c =? 215)%N)
  then ascii_of_N (code c + 32)
  else c.

Fixpoint toLowerCase (s : string) : string :=
  match s with
  | EmptyString => EmptyString
  | String c r => String (lower_char c) (toLowerCase r)
  end.

(** [s.replace(/\s+/g, " ")]: every maximal run of whitespace becomes one
    space. [in_run] tells that the previous character was whitespace. *)
Fixpoint collapse_whitespace (in_run : bool) (s : string) : string :=
  match s with
  | EmptyString => EmptyString
  | String c r =>
      if is_whitespace c
      then if in_run then collapse_whitespace true r
           else String " " (collapse_whitespace true r)
      else String c (collapse_whitespace false r)
  end.

Fixpoint trimStart (s : string) : string :=
  match s with
  | EmptyString => EmptyString
  | String c r => if is_whitespace c then trimStart r else s
  end.

Fixpoint trimEnd (s : string) : string :=
  match s with
  | EmptyString => EmptyString
  | String c r =>
      match trimEnd r with
      | EmptyString => if is_whitespace c then EmptyString else String c EmptyString
      | r' => String c r'
      end
  end.

Definition trim (s : string) : string := trimEnd (trimStart s).

(** [s.slice(0, n)] *)
Fixpoint slice0 (n : nat) (s : string) : string :=
  match n, s with
  | S n', String c r => String c (slice0 n' r)
  | _, _ => EmptyString
  end.

(** ** Message values

    What [JSON.parse] returns, plus [undefined] for an absent property.
    A number is carried by its [ToString] rendering: the relay never
    computes with a number found in a message, it only coerces it to a
    string or passes it through. *)

Inductive value : Type :=
| VUndefined
| VNull
| VBool (b : bool)
| VNum (shown : string)
| VStr (s : string)
| VArr (items : list value)
| VObj (fields : list (string * value)).

Fixpoint assoc (k : string) (fields : list (string * value)) : option value :=
  match fields with
  | [] => None
  | (k', v) :: rest => if String.eqb k k' then Some v else assoc k rest
  end.

(** [v.k] for the property names the relay reads ([type], [to], [app],
    [room], [meta], [patch], [name], [status], [signal], [payload]):
    none of them exists on an array, a string, a number or a boolean, so
    only an object can answer. Reading a property of [null] throws; the
    callers below test for [VNull] before the first read. *)
Definition prop (v : value) (k : string) : value :=
  match v with
  | VObj fields => default VUndefined (assoc k fields)
  | _ => VUndefined
  end.

(** [Object.prototype.hasOwnProperty.call(v, k)], for the same names. *)
Definition hasOwnProperty (v : value) (k : string) : bool :=
  match v with
  | VObj fields => bool_decide (is_Some (assoc k fields))
  | _ => false
  end.

(** [v ?? d] *)
Definition nullish (v d : value) : value :=
  match v with
  | VUndefined | VNull => d
  | _ => v
  end.

(** [v && typeof v === "object"] *)
Definition is_object (v : value) : bool :=
  match v with
  | VArr _ | VObj _ => true
  | _ => false
  end.

Fixpoint join_comma (parts : list string) : string :=
  match parts with
  | [] => ""
  | [p] => p
  | p :: rest => p +:+ "," +:+ join_comma rest
  end.

(** [String(v)], for a value on which it returns ([String_throws] below
    tells the others). An array joins its elements with commas, [null]
    and [undefined] elements giving the empty string; a plain object
    gives ["[object Object]"]. *)
Fixpoint String_ (v : value) : string :=
  match v with
  | VUndefined => "undefined"
  | VNull => "null"
  | VBool true => "true"
  | VBool false => "false"
  | VNum shown => shown
  | VStr s => s
  | VArr items =>
      join_comma
        ((fix each (l : list value) : list string :=
            match l with
            | [] => []
            | VUndefined :: l' => "" :: each l'
            | VNull :: l' => "" :: each l'
            | x :: l' => String_ x :: each l'
            end) items)
  | VObj _ => "[object Object]"
  end.

(** [String(v)] throws a [TypeError] on an object that has an own
    property [toString]: a parsed value is never callable, so the
    conversion falls through to [Object.prototype.valueOf], which returns
    the object itself. On an array it throws when the conversion of an
    element that is neither [null] nor [undefined] does. (The call
    stack a deeply nested array can exhaust is not modelled.) *)
Fixpoint String_throws (v : value) : bool :=
  match v with
  | VArr items =>
      (fix some (l : list value) : bool :=
         match l with
         | [] => false
         | x :: l' => String_throws x || some l'
         end) items
  | VObj fields => bool_decide (is_Some (assoc "toString" fields))
  | _ => false
  end.

(** ** Identity and validation *)

Definition roomKey (app room : string) : string := app +:+ "::" +:+ room.

Definition validChannelName (v : value) : bool :=
  match v with
  | VStr s =>
      (0 <? String.length s)%nat && (String.length s <=? 64)%nat
      && (negb (String.eqb s "") && all_chars is_channel_char s)
  | _ => false
  end.

Definition normalizeDisplayName (v : value) : string :=
  let cleaned :=
    slice0 24 (trim (collapse_whitespace false (String_ (nullish v (VStr ""))))) in
  if String.eqb cleaned "" then "Player" else cleaned.

(** [normalizeDisplayName(value)] throws where its [String(value ?? "")]
    does. *)
Definition normalizeDisplayName_throws (v : value) : bool :=
  String_throws (nullish v (VStr "")).

(** [value === "playing" ? "playing" : "lobby"] *)
Definition normalizePresenceStatus (v : value) : string :=
  match v with
  | VStr s => if String.eqb s "playing" then "playing" else "lobby"
  | _ => "lobby"
  end.

(** The presence record [{name, status}]. *)
Record presence := Presence { m_name : string; m_status : string }.

Definition normalizeMeta (input : value) : presence :=
  let meta := if is_object input then input else VObj [] in
  {| m_name := normalizeDisplayName (prop meta "name");
     m_status := normalizePresenceStatus (prop meta "status") |}.

(** [normalizeMeta(input)] throws where [normalizeDisplayName(meta.name)]
    does. *)
Definition normalizeMeta_throws (input : value) : bool :=
  let meta := if is_object input then input else VObj [] in
  normalizeDisplayName_throws (prop meta "name").

(** ** Numbers of the configuration, randomness and time *)

(** What [Number(...)] can return: a finite value (an exact rational
    here), an infinity or NaN. *)
Inductive number : Type :=
| NaN
| Infinity (negative : bool)
| Finite (q : Q).

(** A value of [Math.random()]: the fraction
    [numer / (numer + gap)], which ranges over the rationals of [0, 1). *)
Record draw := Draw { numer : N; gap : positive }.

Definition draw_value (u : draw) : Q :=
  Z.of_N (numer u) # (match numer u with N0 => gap u | Npos p => p + gap u end)%positive.

(** [Math.floor(Math.random() * 900 + 100)], computed on the exact
    fraction. The code rounds the product and the sum to binary64, which
    for some draws gives the next integer; either way the result is one
    of 100..999, and every draw of [0, 1) is a value of [random]. *)
Definition randomSuffix (u : draw) : Z :=
  Qfloor (draw_value u * (900 # 1) + (100 # 1))%Q.

(** What one handler invocation reads from its environment: the
    successive values of [Math.random()] and the value of [Date.now()]. *)
Record oracle := Oracle { random : nat → draw; now : Z }.

(** ** The hub *)

(** A server-side socket, named by a number. *)
Abbreviation socket := nat (only parsing).

Record client := Client {
  c_id : string;
  c_ws : socket;
  c_app : option string;
  c_room : option string;
  c_meta : option presence;
}.

(** [rooms] and [clients] are the two [Map]s of the hub, [wsToClientId]
    its [WeakMap]; a room's [Set] of member ids is the list of its
    elements in insertion order. [env_MAX_ROOM_SIZE] is
    [Number(env.MAX_ROOM_SIZE)] when the binding is set. *)
Record hub := Hub {
  env_MAX_ROOM_SIZE : option number;
  rooms : gmap string (list string);
  clients : gmap string client;
  wsToClientId : gmap socket string;
}.

Definition with_rooms (h : hub) (r : gmap string (list string)) : hub :=
  {| env_MAX_ROOM_SIZE := env_MAX_ROOM_SIZE h; rooms := r;
     clients := clients h; wsToClientId := wsToClientId h |}.

Definition with_clients (h : hub) (c : gmap string client) : hub :=
  {| env_MAX_ROOM_SIZE := env_MAX_ROOM_SIZE h; rooms := rooms h;
     clients := c; wsToClientId := wsToClientId h |}.

Definition with_wsToClientId (h : hub) (w : gmap socket string) : hub :=
  {| env_MAX_ROOM_SIZE := env_MAX_ROOM_SIZE h; rooms := rooms h;
     clients := clients h; wsToClientId := w |}.

(** [new SignalHub(state, env)] *)
Definition new_hub (env : option number) : hub :=
  {| env_MAX_ROOM_SIZE := env; rooms := ∅; clients := ∅; wsToClientId := ∅ |}.

(** [Set.prototype.add], [Set.prototype.delete] and [size]. *)
Definition set_add (x : string) (s : list string) : list string :=
  if bool_decide (x ∈ s) then s else s ++ [x].

Definition set_delete (x : string) (s : list string) : list string :=
  filter (λ y, y ≠ x) s.

Definition set_size (s : list string) : Z := Z.of_nat (length s).

(** Truthiness of a value that is [null] or a string. *)
Definition truthy (s : option string) : bool :=
  match s with
  | Some s => negb (String.eqb s "")
  | None => false
  end.

(** A [null]-or-string value inside a template literal. *)
Definition template (s : option string) : string := default "null" s.

(** ** Outbound messages *)

Inductive error_detail : Type :=
| NoDetail
| Max (max : Z)
| To (to : string)
| Received (received : value).

Inductive out_msg : Type :=
| Error (reason : string) (detail : error_detail)
| Welcome (id app room : string) (peers : list string)
    (peerMeta : list (string * option presence))
    (meta : option presence) (maxRoomSize : Z)
| PeerJoined (id : string) (meta : option presence)
| PeerLeft (id : string)
| Signal (from : string) (signal : value)
| Direct (from : string) (payload : value)
| Broadcast (from : string) (payload : value)
| MetaUpdated (id : string) (meta : option presence)
| PeerMeta (id : string) (meta : option presence)
| Pong (now : Z).

(** One call of [wsJson(ws, payload)]: the socket written to, the
    message, and (as ghost data) the hub as it stands at the call. A send
    that fails is swallowed by [wsJson]; the call is recorded all the
    same. *)
Record emission := Emission { at_hub : hub; dest : socket; body : out_msg }.

Definition wsJson (h : hub) (ws : socket) (payload : out_msg) : emission :=
  {| at_hub := h; dest := ws; body := payload |}.

(** ** SignalHub *)

Definition maxRoomSize (h : hub) : Z :=
  match default (Finite (64 # 1)) (env_MAX_ROOM_SIZE h) with
  | Finite raw => if Qle_bool (2 # 1) raw then Qfloor raw else 64
  | _ => 64
  end%Z.

(** [ignoreId && memberId === ignoreId] *)
Definition excluded (ignoreId : option string) (memberId : string) : bool :=
  truthy ignoreId && bool_decide (Some memberId = ignoreId).

(** One turn of the loop of [roomUsedNames]. *)
Definition used_step (h : hub) (ignoreId : option string)
    (used : gset string) (memberId : string) : gset string :=
  if excluded ignoreId memberId then used
  else
    match clients h !! memberId with
    | Some member =>
        match c_meta member with
        | Some m =>
            if negb (String.eqb (m_name m) "")
            then {[ toLowerCase (m_name m) ]} ∪ used
            else used
        | None => used
        end
    | None => used
    end.

Definition roomUsedNames (h : hub) (key : string) (ignoreId : option string)
  : gset string :=
  match rooms h !! key with
  | None => ∅
  | Some members => foldl (used_step h ignoreId) ∅ members
  end.

(** The [for] loop of [uniqueName]: attempts [i], [i+1], ... while
    [count] of them remain. *)
Fixpoint random_attempts (used : gset string) (base : string)
    (random : nat → draw) (i count : nat) : option string :=
  match count with
  | O => None
  | S count' =>
      let candidate := base +:+ pretty (randomSuffix (random i)) in
      if bool_decide (toLowerCase candidate ∈ used)
      then random_attempts used base random (S i) count'
      else Some candidate
  end.

(** The [while (n < 10000)] loop of [uniqueName]; [count] is
    [10000 - n], the number of iterations left. *)
Fixpoint sequential_attempts (used : gset string) (base : string)
    (n : Z) (count : nat) : option string :=
  match count with
  | O => None
  | S count' =>
      let candidate := base +:+ pretty n in
      if bool_decide (toLowerCase candidate ∈ used)
      then sequential_attempts used base (n + 1) count'
      else Some candidate
  end.

(** The part of [uniqueName] that follows the collection of [used]. *)
Definition pick_name (used : gset string) (base : string) (o : oracle) : string :=
  if bool_decide (toLowerCase base ∈ used) then
    match random_attempts used base (random o) 0 500 with
    | Some candidate => candidate
    | None =>
        match sequential_attempts used base 2 9998 with
        | Some candidate => candidate
        | None => base +:+ pretty (Z.rem (now o) 100000)
        end
    end
  else base.

Definition uniqueName (h : hub) (o : oracle)
    (baseName : string) (key : string) (ignoreId : option string) : string :=
  let base := normalizeDisplayName (VStr baseName) in
  let used := roomUsedNames h key ignoreId in
  pick_name used base o.

(** The room a client object points to when both [client.app] and
    [client.room] are truthy. *)
Definition joined_room (c : client) : option (string * string) :=
  match c_app c, c_room c with
  | Some a, Some r =>
      if negb (String.eqb a "") && negb (String.eqb r "") then Some (a, r) else None
  | _, _ => None
  end.

(** [for (const memberId of members) { const member = clients.get(memberId);
    if (member) wsJson(member.ws, payload) }], skipping [skip]. *)
Definition notify (h : hub) (members : list string) (skip : option string)
    (payload : out_msg) : list emission :=
  flat_map
    (λ peerId,
       if bool_decide (Some peerId = skip) then []
       else match clients h !! peerId with
            | Some peer => [wsJson h (c_ws peer) payload]
            | None => []
            end)
    members.

Definition leaveRoom (h : hub) (clientId : string) : hub * list emission :=
  match clients h !! clientId with
  | None => (h, [])
  | Some client =>
      let '(h2, out) :=
        match joined_room client with
        | Some (a, r) =>
            let key := roomKey a r in
            match rooms h !! key with
            | Some members =>
                let members := set_delete clientId members in
                let h1 := with_rooms h (<[key := members]> (rooms h)) in
                let out := notify h1 members None (PeerLeft clientId) in
                if (set_size members =? 0)%Z
                then (with_rooms h1 (delete key (rooms h1)), out)
                else (h1, out)
            | None => (h, [])
            end
        | None => (h, [])
        end in
      (with_clients h2 (delete clientId (clients h2)), out)
  end.

Definition relayPeerMeta (h : hub) (client : client) (includeSelfAck : bool)
  : list emission :=
  match joined_room client with
  | None => []
  | Some (a, r) =>
      match rooms h !! roomKey a r with
      | None => []
      | Some members =>
          (if includeSelfAck
           then [wsJson h (c_ws client) (MetaUpdated (c_id client) (c_meta client))]
           else [])
          ++ notify h members (Some (c_id client))
               (PeerMeta (c_id client) (c_meta client))
      end
  end.

Definition set_meta (c : client) (m : option presence) : client :=
  {| c_id := c_id c; c_ws := c_ws c; c_app := c_app c; c_room := c_room c;
     c_meta := m |}.

(** Where [normalizeDisplayName(patch.name)] throws, the [TypeError]
    leaves the handler and the listener that called it before
    [client.meta] is assigned and before anything is sent: the hub is as
    it was and nothing is sent. *)
Definition handleSetMeta (h : hub) (o : oracle) (client : client) (patch : value)
  : hub * list emission :=
  if negb (is_object patch) then
    (h, [wsJson h (c_ws client) (Error "invalid-meta-patch" NoDetail)])
  else if hasOwnProperty patch "name"
          && normalizeDisplayName_throws (prop patch "name") then (h, [])
  else
    let next_name := from_option m_name "Player" (c_meta client) in
    let next_status := from_option m_status "lobby" (c_meta client) in
    let next_name :=
      if hasOwnProperty patch "name" then
        let key := roomKey (template (c_app client)) (template (c_room client)) in
        uniqueName h o (normalizeDisplayName (prop patch "name")) key
          (Some (c_id client))
      else next_name in
    let next_status :=
      if hasOwnProperty patch "status"
      then normalizePresenceStatus (prop patch "status")
      else next_status in
    let next := {| m_name := next_name; m_status := next_status |} in
    let client := set_meta client (Some next) in
    let h := with_clients h (<[c_id client := client]> (clients h)) in
    (h, relayPeerMeta h client true).

(** [msg.type === t] *)
Definition type_is (msg : value) (t : string) : bool :=
  match prop msg "type" with
  | VStr s => String.eqb s t
  | _ => false
  end.

(** The [signal] and [direct] branches, which differ in the message
    built for the target only. *)
Definition relay_to_target (h : hub) (client : client) (msg : value)
    (forwarded : out_msg) : hub * list emission :=
  match prop msg "to" with
  | VStr targetId =>
      match clients h !! targetId with
      | None =>
          (h, [wsJson h (c_ws client) (Error "peer-not-found" (To targetId))])
      | Some target =>
          if negb (bool_decide (c_app target = c_app client))
             || negb (bool_decide (c_room target = c_room client))
          then (h, [wsJson h (c_ws client)
                      (Error "peer-outside-room" (To targetId))])
          else (h, [wsJson h (c_ws target) forwarded])
      end
  | _ => (h, [wsJson h (c_ws client) (Error "missing-target" NoDetail)])
  end.

Definition handleJoinedClientMessage (h : hub) (o : oracle) (client : client)
    (msg : value) : hub * list emission :=
  if type_is msg "signal" then
    relay_to_target h client msg
      (Signal (c_id client) (nullish (prop msg "signal") VNull))
  else if type_is msg "direct" then
    relay_to_target h client msg
      (Direct (c_id client) (nullish (prop msg "payload") VNull))
  else if type_is msg "broadcast" then
    let key := roomKey (template (c_app client)) (template (c_room client)) in
    match rooms h !! key with
    | None => (h, [])
    | Some members =>
        (h, notify h members (Some (c_id client))
              (Broadcast (c_id client) (nullish (prop msg "payload") VNull)))
    end
  else if type_is msg "set-meta" then
    handleSetMeta h o client (prop msg "patch")
  else if type_is msg "ping" then
    (h, [wsJson h (c_ws client) (Pong (now o))])
  else
    (h, [wsJson h (c_ws client)
           (Error "unknown-message-type"
              (Received (nullish (prop msg "type") VNull)))]).

(** Where [normalizeMeta(meta)] throws, the [TypeError] leaves the
    handler and the listener that called it before any mutation and
    before anything is sent: the hub is as it was and nothing is sent. *)
Definition handleFirstJoin (h : hub) (o : oracle) (client : client)
    (msg : value) : hub * list emission :=
  if negb (type_is msg "join") then
    (h, [wsJson h (c_ws client) (Error "join-required-first" NoDetail)])
  else
    match prop msg "app", prop msg "room" with
    | VStr app, VStr room =>
        if negb (validChannelName (VStr app))
           || negb (validChannelName (VStr room))
        then (h, [wsJson h (c_ws client) (Error "invalid-app-or-room" NoDetail)])
        else
          let key := roomKey app room in
          let members := default [] (rooms h !! key) in
          let maxRoomSize := maxRoomSize h in
          if (maxRoomSize <=? set_size members)%Z then
            (h, [wsJson h (c_ws client) (Error "room-full" (Max maxRoomSize))])
          else if normalizeMeta_throws (prop msg "meta") then (h, [])
          else
            let nextMeta := normalizeMeta (prop msg "meta") in
            let nextMeta :=
              {| m_name := uniqueName h o (m_name nextMeta) key (Some (c_id client));
                 m_status := m_status nextMeta |} in
            let peers := members in
            let peerMeta :=
              map (λ peerId, (peerId, clients h !! peerId ≫= c_meta)) peers in
            let members := set_add (c_id client) members in
            let h := with_rooms h (<[key := members]> (rooms h)) in
            let client :=
              {| c_id := c_id client; c_ws := c_ws client; c_app := Some app;
                 c_room := Some room; c_meta := Some nextMeta |} in
            let h := with_clients h (<[c_id client := client]> (clients h)) in
            (h, wsJson h (c_ws client)
                  (Welcome (c_id client) app room peers peerMeta
                     (c_meta client) maxRoomSize)
                :: notify h peers None
                     (PeerJoined (c_id client) (c_meta client)))
    | _, _ => (h, [wsJson h (c_ws client) (Error "invalid-app-or-room" NoDetail)])
    end.

(** [handleMessage(ws, raw)]; [parsed] is what [JSON.parse(wsText(raw))]
    gives, [None] when it throws. A parsed [null] makes the first
    [msg.type] throw a [TypeError] out of the listener, before any send
    or mutation. *)
Definition handleMessage (h : hub) (o : oracle) (ws : socket)
    (parsed : option value) : hub * list emission :=
  match wsToClientId h !! ws with
  | None => (h, [])
  | Some clientId =>
      if String.eqb clientId "" then (h, []) else
      match clients h !! clientId with
      | None => (h, [])
      | Some client =>
          match parsed with
          | None => (h, [wsJson h ws (Error "invalid-json" NoDetail)])
          | Some VNull => (h, [])
          | Some msg =>
              if truthy (c_app client) && truthy (c_room client)
              then handleJoinedClientMessage h o client msg
              else handleFirstJoin h o client msg
          end
      end
  end.

(** The part of [fetch] that registers an accepted socket:
    [serverSocket] is the new socket and [clientId] the value of
    [crypto.randomUUID()]. *)
Definition accept (h : hub) (serverSocket : socket) (clientId : string) : hub :=
  let h := with_wsToClientId h (<[serverSocket := clientId]> (wsToClientId h)) in
  with_clients h
    (<[clientId := {| c_id := clientId; c_ws := serverSocket; c_app := None;
                      c_room := None; c_meta := None |}]> (clients h)).

(** ** Runs of the hub *)

(** What happens to a hub: a socket is accepted, a message arrives on a
    socket, or the [close]/[error] listener of a client fires. *)
Inductive event : Type :=
| Accepted (serverSocket : socket) (clientId : string)
| Message (ws : socket) (parsed : option value) (o : oracle)
| Closed (clientId : string).

Definition handle (h : hub) (e : event) : hub * list emission :=
  match e with
  | Accepted serverSocket clientId => (accept h serverSocket clientId, [])
  | Message ws parsed o => handleMessage h o ws parsed
  | Closed clientId => leaveRoom h clientId
  end.

(** An accepted socket is a new object, and [crypto.randomUUID()] returns
    a non-empty identifier that was never issued before. *)
Definition fresh (h : hub) (e : event) : Prop :=
  match e with
  | Accepted serverSocket clientId =>
      wsToClientId h !! serverSocket = None
      ∧ clientId ≠ ""
      ∧ ∀ ws, wsToClientId h !! ws ≠ Some clientId
  | _ => True
  end.

(** The hubs a run can produce, from [new SignalHub]. *)
Inductive reachable (env : option number) : hub → Prop :=
| reachable_new : reachable env (new_hub env)
| reachable_step h e :
    reachable env h → fresh h e → reachable env (handle h e).1.

(** ** Vocabulary of the statements *)

(** The message a [signal] or [direct] request hands to its target. *)
Definition forwarded (client : client) (msg : value) : out_msg :=
  if type_is msg "signal"
  then Signal (c_id client) (nullish (prop msg "signal") VNull)
  else Direct (c_id client) (nullish (prop msg "payload") VNull).

Definition same_room (a b : client) : Prop :=
  c_app a = c_app b ∧ c_room a = c_room b.

(** The candidates of the two loops of [uniqueName]. *)
Definition random_candidate (base : string) (o : oracle) (i : nat) : string :=
  base +:+ pretty (randomSuffix (random o i)).

Definition sequential_candidate (base : string) (n : Z) : string :=
  base +:+ pretty n.

(** A lower-cased display name is taken in a room when a member other
    than [ignoreId] carries it. *)
Definition name_taken (h : hub) (key : string) (ignoreId : option string)
    (x : string) : Prop :=
  ∃ members memberId member m,
    rooms h !! key = Some members ∧ memberId ∈ members
    ∧ Some memberId ≠ ignoreId
    ∧ clients h !! memberId = Some member ∧ c_meta member = Some m
    ∧ toLowerCase (m_name m) = x.

(** A [set-meta] patch on which [handleSetMeta] throws: it has a [name]
    that [String] cannot convert. *)
Definition patch_throws (patch : value) : bool :=
  hasOwnProperty patch "name" && normalizeDisplayName_throws (prop patch "name").

(** The metadata a [set-meta] stores for a client, from the client's
    metadata of before and the patch. *)
Definition patched_meta (h : hub) (o : oracle) (client : client)
    (patch : value) : presence :=
  {| m_name :=
       if hasOwnProperty patch "name"
       then uniqueName h o (normalizeDisplayName (prop patch "name"))
              (roomKey (template (c_app client)) (template (c_room client)))
              (Some (c_id client))
       else from_option m_name "Player" (c_meta client);
     m_status :=
       if hasOwnProperty patch "status"
       then normalizePresenceStatus (prop patch "status")
       else from_option m_status "lobby" (c_meta client) |}.

(** ** Registry invariants *)

(** What holds of one client entry: it sits under its own non-empty id,
    its socket maps back to it, and it is either not joined (no app, no
    room, no metadata) or joined to a room that lists it. *)
Definition client_ok (h : hub) (i : string) (c : client) : Prop :=
  c_id c = i ∧ i ≠ "" ∧ wsToClientId h !! c_ws c = Some i
  ∧ match c_app c, c_room c with
    | None, None => c_meta c = None
    | Some a, Some r =>
        validChannelName (VStr a) = true ∧ validChannelName (VStr r) = true
        ∧ is_Some (c_meta c)
        ∧ ∃ members, rooms h !! roomKey a r = Some members ∧ i ∈ members
    | _, _ => False
    end.

(** What holds of one member of one room: it is a client whose own
    (app, room) is that room. *)
Definition member_ok (h : hub) (key i : string) : Prop :=
  ∃ c a r, clients h !! i = Some c ∧ c_app c = Some a ∧ c_room c = Some r
           ∧ roomKey a r = key.

Record wf (h : hub) : Prop := {
  wf_client : ∀ i c, clients h !! i = Some c → client_ok h i c;
  wf_member : ∀ key members i,
    rooms h !! key = Some members → i ∈ members → member_ok h key i;
  wf_room : ∀ key members,
    rooms h !! key = Some members →
    members ≠ [] ∧ NoDup members ∧ (set_size members ≤ maxRoomSize h)%Z;
}.

(** The hub after a successful join of [client] into [app]/[room] under
    the metadata [nextMeta]. *)
Definition hub_after_join (h : hub) (client : client) (app room : string)
    (nextMeta : presence) : hub :=
  let key := roomKey app room in
  let members := set_add (c_id client) (default [] (rooms h !! key)) in
  let h := with_rooms h (<[key := members]> (rooms h)) in
  with_clients h
    (<[c_id client :=
         {| c_id := c_id client; c_ws := c_ws client; c_app := Some app;
            c_room := Some room; c_meta := Some nextMeta |}]> (clients h)).

(** The metadata a join message asks for, once normalized and made
    unique in the room. *)
Definition joining_meta (h : hub) (o : oracle) (client : client)
    (app room : string) (msg : value) : presence :=
  {| m_name := uniqueName h o (m_name (normalizeMeta (prop msg "meta")))
                 (roomKey app room) (Some (c_id client));
     m_status := m_status (normalizeMeta (prop msg "meta")) |}.

(** A join message naming valid [app] and [room]. *)
Definition join_request (msg : value) (app room : string) : Prop :=
  type_is msg "join" = true
  ∧ prop msg "app" = VStr app ∧ prop msg "room" = VStr room
  ∧ validChannelName (VStr app) = true ∧ validChannelName (VStr room) = true.

(** The members of a room, none when the key is absent. *)
Definition members_of (h : hub) (key : string) : list string :=
  default [] (rooms h !! key).

(** The hub after the teardown of a client that was a member of the room
    [key]. *)
Definition hub_after_leave (h : hub) (clientId key : string) : hub :=
  let members := set_delete clientId (members_of h key) in
  with_clients
    (with_rooms h
       (if decide (members = []) then delete key (rooms h)
        else <[key := members]> (rooms h)))
    (delete clientId (clients h)).

(** ** Display names *)

(** The display name a client id carries, if it is a client with
    metadata. *)
Definition display_name (h : hub) (i : string) : option string :=
  m_name <$> (clients h !! i ≫= c_meta).

(** Within every room, two distinct members have display names that
    differ once lower-cased. *)
Definition names_unique (h : hub) : Prop :=
  ∀ key members i j ni nj,
    rooms h !! key = Some members → i ∈ members → j ∈ members → i ≠ j →
    display_name h i = Some ni → display_name h j = Some nj →
    toLowerCase ni ≠ toLowerCase nj.

(** The lower-cased names the sequential loop of [uniqueName] can try,
    with the lower-cased base name in front. *)
Definition sequential_pool (base : string) : list string :=
  toLowerCase base
  :: ((λ n, toLowerCase (sequential_candidate base n)) <$> seqZ 2 9998).

(** The character of the room-key separator. *)
Definition colon : ascii := ":"%char.

(** A character that is no whitespace. *)
Definition visible (c : ascii) : bool := negb (is_whitespace c).

(** ** Sample hubs *)

Definition hub_two_rooms : hub :=
  {| env_MAX_ROOM_SIZE := None;
     rooms := {[ "demo::r1" := ["A"]; "demo::r2" := ["B"] ]};
     clients :=
       {[ "A" := Client "A" 1 (Some "demo") (Some "r1")
                   (Some (Presence "Ann" "lobby"));
          "B" := Client "B" 2 (Some "demo") (Some "r2")
                   (Some (Presence "Bob" "lobby")) ]};
     wsToClientId := {[ 1 := "A"; 2 := "B" ]} |}.

Definition quiet : oracle := {| random := λ _, Draw 0 1; now := 0 |}.

Definition join_demo : value :=
  VObj [("type", VStr "join"); ("app", VStr "demo"); ("room", VStr "r1")].

Definition newcomer : client := Client "C" 3 None None None.


(** The hub after [newcomer] connected and joined [demo]/[r1] alone. *)
Definition hub_alone : hub :=
  (handle (handle (new_hub None) (Accepted 3 "C")).1
     (Message 3 (Some join_demo) quiet)).1.

(** The same hub once a second socket is accepted. *)
Definition hub_with_guest : hub := (handle hub_alone (Accepted 4 "D")).1.

Definition guest : client := Client "D" 4 None None None.

(** ** A crowded room *)

(** A hub configured for rooms of up to 10000 members. *)
Definition crowded_env : option number := Some (Finite (10000 # 1)).

Definition join_as (nm : string) : value :=
  VObj [("type", VStr "join"); ("app", VStr "a"); ("room", VStr "r");
        ("meta", VObj [("name", VStr nm)])].

(** The id of the [k]-th client of the crowd, whose socket is [k]. *)
Definition crowd_id (k : nat) : string := "c" +:+ pretty k.

(** The room of the crowd. *)
Definition crowd_key : string := roomKey "a" "r".

(** The client entry of the [k]-th socket once accepted. *)
Definition applicant (k : nat) : client := Client (crowd_id k) k None None None.

(** The [k]-th socket is accepted and its client joins [a]/[r] asking
    for the name [nm]. *)
Definition enrol (h : hub) (o : oracle) (k : nat) (nm : string) : hub :=
  (handle (handle h (Accepted k (crowd_id k))).1
     (Message k (Some (join_as nm)) o)).1.

(** The names [P], [P2], [P3], ... *)
Definition crowd_name (k : nat) : string :=
  if (k =? 1)%nat then "P" else sequential_candidate "P" (Z.of_nat k).

(** The hub after the first [n] clients of the crowd joined. *)
Fixpoint crowd (n : nat) : hub :=
  match n with
  | O => new_hub crowded_env
  | S n' => enrol (crowd n') quiet n (crowd_name n)
  end.

(** Every random draw gives the suffix 100, and the clock reads 2. *)
Definition late : oracle := {| random := λ _, Draw 0 1; now := 2 |}.

(** One more client asks for the name [P] in the room of 9999. *)
Definition overcrowded : hub := enrol (crowd 9999) late (S 9999) "P".

(** What is known of the hub once the first [n] clients of the crowd
    have joined. *)
Record crowded (n : nat) (h : hub) : Prop := {
  crowded_members : members_of h crowd_key = crowd_id <$> seq 1 n;
  crowded_names : ∀ k, (1 ≤ k ≤ n)%nat →
    display_name h (crowd_id k) = Some (crowd_name k);
  crowded_sockets : ∀ ws i, wsToClientId h !! ws = Some i →
    (1 ≤ ws ≤ n)%nat ∧ i = crowd_id ws;
  crowded_max : maxRoomSize h = 10000%Z;
}.


(** ** Vocabulary of further statements *)

(** No two sockets stand for the same client id. *)
Definition sockets_ok (h : hub) : Prop :=
  ∀ ws ws' i,
    wsToClientId h !! ws = Some i → wsToClientId h !! ws' = Some i → ws = ws'.

(** The emission [e] hands [payload] to the socket of the client
    [peerId]. *)
Definition delivered (h : hub) (payload : out_msg) (peerId : string)
    (e : emission) : Prop :=
  ∃ peer, clients h !! peerId = Some peer ∧ dest e = c_ws peer ∧ body e = payload.

(** An emission that is an error reply. *)
Definition is_error (e : emission) : Prop :=
  ∃ reason detail, body e = Error reason detail.

(** A presence record as the hub stores them: one of the two statuses, a
    display name that is not empty and has at most 30 characters (24 of
    the normalized name, and up to 6 of an allocated suffix). *)
Definition presence_ok (m : presence) : Prop :=
  (m_status m = "playing" ∨ m_status m = "lobby")
  ∧ m_name m ≠ ""
  ∧ (String.length (m_name m) ≤ 30)%nat.

Definition metas_ok (h : hub) : Prop :=
  ∀ i c m, clients h !! i = Some c → c_meta c = Some m → presence_ok m.

(** Whitespace occurs in [s] only as single spaces, each right after a
    character that is no whitespace; [after_space] tells that a space
    may not come first. *)
Fixpoint single_spaced (after_space : bool) (s : string) : bool :=
  match s with
  | EmptyString => true
  | String c r =>
      if is_whitespace c
      then Ascii.eqb c " " && negb after_space && single_spaced true r
      else single_spaced false r
  end.

(** ** Two clients in one room *)

(** The hub after [guest] joined [demo]/[r1] as well, where it is named
    [Player100]. *)
Definition hub_pair : hub :=
  (handle hub_with_guest (Message 4 (Some join_demo) quiet)).1.

(** The entries of the two clients in [hub_pair]. *)
Definition host : client :=
  Client "C" 3 (Some "demo") (Some "r1") (Some (Presence "Player" "lobby")).

Definition partner : client :=
  Client "D" 4 (Some "demo") (Some "r1") (Some (Presence "Player100" "lobby")).

Definition shout : value :=
  VObj [("type", VStr "broadcast"); ("payload", VStr "hi")].


(** Every socket is open. *)
Definition all_open : socket → bool := λ _, true.

(** A hub configured with the limit 5/2. *)
Definition hub_fractional : hub := new_hub (Some (Finite (5 # 2))).

(** The patch of a client that asks for the name [Player]. *)
Definition rename_same : value := VObj [("name", VStr "Player")].

(** Only the socket 3 is open. *)
Definition only_host : socket → bool := λ ws, (ws =? 3)%nat.

(** ** A name that cannot be converted *)

(** The value of [{"toString": 1}]. *)
Definition odd_name : value := VObj [("toString", VNum "1")].

Definition join_odd : value :=
  VObj [("type", VStr "join"); ("app", VStr "demo"); ("room", VStr "r1");
        ("meta", VObj [("name", odd_name)])].

Definition rename_odd : value :=
  VObj [("type", VStr "set-meta"); ("patch", VObj [("name", odd_name)])].

(** ** A full room *)




(** ** The Node server

    The stand-alone server keeps the same three registries at module
    level and runs the same pure functions; its [roomUsedNames] and
    [uniqueName] are those of the hub, read over the module's registries.
    It differs in what follows: the limit is read once and not validated,
    [json] sends to open sockets only, and a client entry exists from the
    join on, not from the connection. *)

Module Node.

(** [Number(process.env.MAX_ROOM_SIZE ?? 64)] *)
Definition MAX_ROOM_SIZE (h : hub) : number :=
  default (Finite (64 # 1)) (env_MAX_ROOM_SIZE h).

(** [n >= x] for an integer [n] *)
Definition ge_number (n : Z) (x : number) : bool :=
  match x with
  | NaN => false
  | Infinity negative => negative
  | Finite q => Qle_bool q (inject_Z n)
  end.

(** The payloads of the server: those of the hub, and the two that carry
    the unvalidated limit. *)
Inductive message : Type :=
| Plain (m : out_msg)
| RoomFull (max : number)
| WelcomeTo (id app room : string) (peers : list string)
    (peerMeta : list (string * option presence))
    (meta : option presence) (maxRoomSize : number).

Record packet := Packet { p_dest : socket; p_body : message }.

(** [json(ws, payload)]; [ready ws] is [ws.readyState === 1]. *)
Definition json (ready : socket → bool) (ws : socket) (payload : message)
  : list packet :=
  if ready ws then [Packet ws payload] else [].

(** [for (const peerId of members) { if (peerId === skip) continue;
    const peer = clients.get(peerId); if (!peer) continue;
    json(peer.ws, payload) }] *)
Definition each_peer (ready : socket → bool) (h : hub) (members : list string)
    (skip : option string) (payload : message) : list packet :=
  flat_map
    (λ peerId,
       if bool_decide (Some peerId = skip) then []
       else match clients h !! peerId with
            | Some peer => json ready (c_ws peer) payload
            | None => []
            end)
    members.

Definition relayPeerMeta (ready : socket → bool) (h : hub) (client : client)
    (includeSelfAck : bool) : list packet :=
  match joined_room client with
  | None => []
  | Some (a, r) =>
      match rooms h !! roomKey a r with
      | None => []
      | Some members =>
          (if includeSelfAck
           then json ready (c_ws client)
                  (Plain (MetaUpdated (c_id client) (c_meta client)))
           else [])
          ++ each_peer ready h members (Some (c_id client))
               (Plain (PeerMeta (c_id client) (c_meta client)))
      end
  end.

Definition leaveRoom (ready : socket → bool) (h : hub) (clientId : string)
  : hub * list packet :=
  match clients h !! clientId with
  | None => (h, [])
  | Some client =>
      let '(h2, out) :=
        match joined_room client with
        | Some (a, r) =>
            let key := roomKey a r in
            match rooms h !! key with
            | Some members =>
                let members := set_delete clientId members in
                let h1 := with_rooms h (<[key := members]> (rooms h)) in
                let out :=
                  each_peer ready h1 members None (Plain (PeerLeft clientId)) in
                if (set_size members =? 0)%Z
                then (with_rooms h1 (delete key (rooms h1)), out)
                else (h1, out)
            | None => (h, [])
            end
        | None => (h, [])
        end in
      (with_clients h2 (delete clientId (clients h2)), out)
  end.

(** The listener's branch for a socket without a client entry. The
    result is [None] where [normalizeMeta] throws: the [TypeError] leaves
    the listener before any mutation and before anything is sent. *)
Definition join_branch (ready : socket → bool) (h : hub) (o : oracle)
    (ws : socket) (clientId : string) (msg : value)
  : option (hub * list packet) :=
  if negb (type_is msg "join") then
    Some (h, json ready ws (Plain (Error "join-required-first" NoDetail)))
  else
    match prop msg "app", prop msg "room" with
    | VStr app, VStr room =>
        if negb (validChannelName (VStr app))
           || negb (validChannelName (VStr room))
        then
          Some (h, json ready ws (Plain (Error "invalid-app-or-room" NoDetail)))
        else
          let key := roomKey app room in
          let members := default [] (rooms h !! key) in
          if ge_number (set_size members) (MAX_ROOM_SIZE h) then
            Some (h, json ready ws (RoomFull (MAX_ROOM_SIZE h)))
          else if normalizeMeta_throws (prop msg "meta") then None
          else
            let nextMeta := normalizeMeta (prop msg "meta") in
            let nextMeta :=
              {| m_name := uniqueName h o (m_name nextMeta) key (Some clientId);
                 m_status := m_status nextMeta |} in
            let peers := members in
            let peerMeta :=
              map (λ peerId, (peerId, clients h !! peerId ≫= c_meta)) peers in
            let members := set_add clientId members in
            let h := with_rooms h (<[key := members]> (rooms h)) in
            let h :=
              with_clients h
                (<[clientId :=
                     {| c_id := clientId; c_ws := ws; c_app := Some app;
                        c_room := Some room; c_meta := Some nextMeta |}]>
                   (clients h)) in
            Some (h, json ready ws
                       (WelcomeTo clientId app room peers peerMeta
                          (Some nextMeta) (MAX_ROOM_SIZE h))
                     ++ each_peer ready h peers None
                          (Plain (PeerJoined clientId (Some nextMeta))))
    | _, _ =>
        Some (h, json ready ws (Plain (Error "invalid-app-or-room" NoDetail)))
    end.

(** The [signal] and [direct] branches of the listener, which differ in
    the message built for the target only. *)
Definition relay_to_target (ready : socket → bool) (h : hub) (ws : socket)
    (existingClient : client) (msg : value) (forwarded : out_msg)
  : hub * list packet :=
  match prop msg "to" with
  | VStr targetId =>
      match clients h !! targetId with
      | None => (h, json ready ws (Plain (Error "peer-not-found" (To targetId))))
      | Some target =>
          if negb (bool_decide (c_app target = c_app existingClient))
             || negb (bool_decide (c_room target = c_room existingClient))
          then (h, json ready ws
                     (Plain (Error "peer-outside-room" (To targetId))))
          else (h, json ready (c_ws target) (Plain forwarded))
      end
  | _ => (h, json ready ws (Plain (Error "missing-target" NoDetail)))
  end.

(** The listener's branches for a socket whose client entry exists. The
    result is [None] where [normalizeDisplayName(msg.patch.name)] throws:
    the [TypeError] leaves the listener before [existingClient.meta] is
    assigned and before anything is sent. *)
Definition client_branch (ready : socket → bool) (h : hub) (o : oracle)
    (ws : socket) (clientId : string) (existingClient : client) (msg : value)
  : option (hub * list packet) :=
  if type_is msg "signal" then
    Some (relay_to_target ready h ws existingClient msg
            (Signal clientId (nullish (prop msg "signal") VNull)))
  else if type_is msg "direct" then
    Some (relay_to_target ready h ws existingClient msg
            (Direct clientId (nullish (prop msg "payload") VNull)))
  else if type_is msg "broadcast" then
    let key :=
      roomKey (template (c_app existingClient))
        (template (c_room existingClient)) in
    match rooms h !! key with
    | None => Some (h, [])
    | Some members =>
        Some (h, each_peer ready h members (Some clientId)
                   (Plain (Broadcast clientId
                             (nullish (prop msg "payload") VNull))))
    end
  else if type_is msg "set-meta" then
    if negb (is_object (prop msg "patch")) then
      Some (h, json ready ws (Plain (Error "invalid-meta-patch" NoDetail)))
    else
      let patch := prop msg "patch" in
      if hasOwnProperty patch "name"
         && normalizeDisplayName_throws (prop patch "name") then None
      else
        let next_name := from_option m_name "Player" (c_meta existingClient) in
        let next_status :=
          from_option m_status "lobby" (c_meta existingClient) in
        let next_name :=
          if hasOwnProperty patch "name" then
            let key :=
              roomKey (template (c_app existingClient))
                (template (c_room existingClient)) in
            uniqueName h o (normalizeDisplayName (prop patch "name")) key
              (Some (c_id existingClient))
          else next_name in
        let next_status :=
          if hasOwnProperty patch "status"
          then normalizePresenceStatus (prop patch "status")
          else next_status in
        let next := {| m_name := next_name; m_status := next_status |} in
        let existingClient := set_meta existingClient (Some next) in
        let h := with_clients h (<[clientId := existingClient]> (clients h)) in
        Some (h, relayPeerMeta ready h existingClient true)
  else if type_is msg "ping" then
    Some (h, json ready ws (Plain (Pong (now o))))
  else
    Some (h, json ready ws
               (Plain (Error "unknown-message-type"
                         (Received (nullish (prop msg "type") VNull))))).

(** The [message] listener of the connection of [ws], whose closure
    holds [clientId]; [parsed] is what [JSON.parse] gives, [None] when it
    throws. A parsed [null] makes the first [msg.type] throw a
    [TypeError] out of the listener: the result is [None], as it is
    where a branch throws. *)
Definition listener (ready : socket → bool) (h : hub) (o : oracle)
    (ws : socket) (clientId : string) (parsed : option value)
  : option (hub * list packet) :=
  match parsed with
  | None => Some (h, json ready ws (Plain (Error "invalid-json" NoDetail)))
  | Some VNull => None
  | Some msg =>
      match clients h !! clientId with
      | None => join_branch ready h o ws clientId msg
      | Some existingClient =>
          client_branch ready h o ws clientId existingClient msg
      end
  end.

End Node.

(** What the Node server puts on the wire for the sends of the hub: each
    one, if its socket is open. *)
Definition wire (ready : socket → bool) (out : list emission)
  : list Node.packet :=
  flat_map (λ e, Node.json ready (dest e) (Node.Plain (body e))) out.








(** * Properties *)

Example String_throws_cases :
  String_throws odd_name = true
  ∧ String_throws (VArr [VNull; VArr [VStr "a"; odd_name]]) = true
  ∧ String_throws (VObj [("valueOf", VNum "1")]) = false
  ∧ String_throws (VArr [VNull; VNum "1"; VObj []]) = false.
Proof. repeat split; reflexivity. Qed.

Example normalizeDisplayName_spaces :
  normalizeDisplayName (VStr "  Ann   Lee ") = "Ann Lee".
Proof. reflexivity. Qed.

Example normalizeDisplayName_default :
  normalizeDisplayName VUndefined = "Player".
Proof. reflexivity. Qed.

Example normalizeDisplayName_long :
  normalizeDisplayName (VStr "abcdefghijklmnopqrstuvwxyz0123") =
  "abcdefghijklmnopqrstuvwx".
Proof. reflexivity. Qed.

(** The first scenarios of a room: a lone client is welcomed with no
    peers and the default metadata; a second one asking for the same name
    gets a suffixed name and the first is told; the first one leaving is
    announced to the second alone. *)

Example first_client_welcomed :
  map (λ e, (dest e, body e))
    (handleMessage (accept (new_hub None) 3 "C") quiet 3 (Some join_demo)).2
  = [(3, Welcome "C" "demo" "r1" [] []
           (Some (Presence "Player" "lobby")) 64)].
Proof. reflexivity. Qed.

Example second_client_renamed :
  map (λ e, (dest e, body e))
    (handleMessage hub_with_guest quiet 4 (Some join_demo)).2
  = [(4, Welcome "D" "demo" "r1" ["C"]
           [("C", Some (Presence "Player" "lobby"))]
           (Some (Presence "Player100" "lobby")) 64);
     (3, PeerJoined "D" (Some (Presence "Player100" "lobby")))].
Proof. reflexivity. Qed.

Example first_client_leaves :
  map (λ e, (dest e, body e))
    (leaveRoom (handleMessage hub_with_guest quiet 4 (Some join_demo)).1 "C").2
  = [(4, PeerLeft "C")].
Proof. reflexivity. Qed.

Example maxRoomSize_floor :
  maxRoomSize (new_hub (Some (Finite (17 # 2)))) = 8%Z
  ∧ maxRoomSize (new_hub (Some (Finite (3 # 2)))) = 64%Z
  ∧ maxRoomSize (new_hub (Some NaN)) = 64%Z.
Proof. repeat split. Qed.

(** ** The room key is injective on validated names *)

Lemma channel_char_not_colon c : is_channel_char c = true → c ≠ colon.
Proof. intros H ->. vm_compute in H. discriminate. Qed.

Lemma roomKey_split a1 r1 a2 r2 :
  all_chars is_channel_char a1 = true →
  all_chars is_channel_char a2 = true →
  roomKey a1 r1 = roomKey a2 r2 → a1 = a2 ∧ r1 = r2.
Proof.
  unfold roomKey. revert a2.
  induction a1 as [|c a1 IH]; intros [|d a2] H1 H2 Heq; simpl in *.
  - by simplify_eq.
  - apply andb_prop in H2 as [Hd _]. apply channel_char_not_colon in Hd.
    by simplify_eq.
  - apply andb_prop in H1 as [Hc _]. apply channel_char_not_colon in Hc.
    by simplify_eq.
  - apply andb_prop in H1 as [_ H1]. apply andb_prop in H2 as [_ H2].
    injection Heq as -> Heq. destruct (IH a2 H1 H2 Heq) as [-> ->]. done.
Qed.

Lemma validChannelName_chars s :
  validChannelName (VStr s) = true → all_chars is_channel_char s = true.
Proof.
  simpl. intros H. repeat (apply andb_prop in H as [? H]). done.
Qed.

(** C9: for validated [app] and [room] names, equal room keys come from
    equal (app, room) pairs: the separator ["::"] cannot occur inside a
    name made of [[A-Za-z0-9_-]] only. *)
Theorem roomKey_injective app1 room1 app2 room2 :
  validChannelName (VStr app1) = true →
  validChannelName (VStr room1) = true →
  validChannelName (VStr app2) = true →
  validChannelName (VStr room2) = true →
  roomKey app1 room1 = roomKey app2 room2 →
  app1 = app2 ∧ room1 = room2.
Proof.
  intros Ha1 _ Ha2 _. apply roomKey_split; by apply validChannelName_chars.
Qed.

Lemma roomKey_injective_witness :
  roomKey "demo" "r1" = roomKey "demo" "r1" ∧ ("demo" = "demo" ∧ "r1" = "r1").
Proof.
  split; [reflexivity|].
  apply (roomKey_injective "demo" "r1" "demo" "r1"); reflexivity.
Defined.

(** ** Teardown *)

Lemma leaveRoom_forgets h clientId :
  clients (leaveRoom h clientId).1 !! clientId = None.
Proof.
  unfold leaveRoom. destruct (clients h !! clientId) as [client|] eqn:Hc; [|done].
  destruct (joined_room client) as [[a r]|]; simpl;
    [destruct (rooms h !! roomKey a r); simpl; [case_match|] |];
    simpl; apply lookup_delete_eq.
Qed.

Lemma leaveRoom_unknown h clientId :
  clients h !! clientId = None → leaveRoom h clientId = (h, []).
Proof. unfold leaveRoom. by intros ->. Qed.

(** C5: teardown is idempotent. A second [leaveRoom] for the same client
    id returns the hub of the first unchanged and sends nothing, so both
    the final registries and the [peer-left] notifications of two calls
    are those of one call. *)
Theorem leaveRoom_idempotent h clientId :
  let once := leaveRoom h clientId in
  let twice := leaveRoom once.1 clientId in
  twice.1 = once.1 ∧ twice.2 = [] ∧ once.2 ++ twice.2 = once.2.
Proof.
  simpl. rewrite (leaveRoom_unknown _ _ (leaveRoom_forgets h clientId)). simpl.
  by rewrite app_nil_r.
Qed.

(** ** Addressed relay *)

Lemma relay_dispatch h o client msg :
  type_is msg "signal" = true ∨ type_is msg "direct" = true →
  handleJoinedClientMessage h o client msg =
  relay_to_target h client msg (forwarded client msg).
Proof.
  unfold handleJoinedClientMessage, forwarded.
  destruct (type_is msg "signal"); [done|]. by intros [?| ->].
Qed.

(** C7: a [signal] or [direct] message from a client is answered to the
    sender alone with [missing-target] when [to] is no string, with
    [peer-not-found] when no client has that id, with [peer-outside-room]
    when the target's (app, room) differs from the sender's; otherwise
    the payload goes to the target only, tagged with the sender's id. The
    registries are the same afterwards in every case. *)
Theorem relay_addressing h o client msg :
  type_is msg "signal" = true ∨ type_is msg "direct" = true →
  let result := handleJoinedClientMessage h o client msg in
  result.1 = h
  ∧ ((∀ targetId, prop msg "to" ≠ VStr targetId) →
       result.2 = [wsJson h (c_ws client) (Error "missing-target" NoDetail)])
  ∧ (∀ targetId, prop msg "to" = VStr targetId →
       (clients h !! targetId = None →
          result.2 = [wsJson h (c_ws client)
                        (Error "peer-not-found" (To targetId))])
       ∧ (∀ target, clients h !! targetId = Some target →
            (¬ same_room target client →
               result.2 = [wsJson h (c_ws client)
                             (Error "peer-outside-room" (To targetId))])
            ∧ (same_room target client →
                 result.2 = [wsJson h (c_ws target) (forwarded client msg)]))).
Proof.
  intros Ht. simpl. rewrite (relay_dispatch _ _ _ _ Ht).
  unfold relay_to_target, same_room. split; [|split].
  - destruct (prop msg "to"); try done.
    destruct (clients h !! s); [case_match|]; done.
  - intros Hto. destruct (prop msg "to"); try done. by destruct (Hto s).
  - intros targetId ->. split.
    + by intros ->.
    + intros target ->. split.
      * intros Hne. repeat case_bool_decide; simpl; try done. by destruct Hne.
      * intros [-> ->]. repeat case_bool_decide; done.
Qed.

Lemma relay_addressing_witness :
  let client := Client "A" 1 (Some "demo") (Some "r1")
                  (Some (Presence "Ann" "lobby")) in
  let msg := VObj [("type", VStr "signal"); ("to", VStr "B");
                   ("signal", VStr "offer")] in
  (handleJoinedClientMessage hub_two_rooms quiet client msg).2 =
  [wsJson hub_two_rooms 1 (Error "peer-outside-room" (To "B"))].
Proof.
  intros client msg.
  destruct (relay_addressing hub_two_rooms quiet client msg) as (_ & _ & H).
  { left. reflexivity. }
  destruct (H "B") as [_ H']; [reflexivity|].
  destruct (H' (Client "B" 2 (Some "demo") (Some "r2")
                  (Some (Presence "Bob" "lobby")))) as [Hout _].
  { reflexivity. }
  apply Hout. unfold same_room. simpl. intros [_ ?]. discriminate.
Defined.

(** C10: a [signal] (or [direct]) message whose [to] is the sender's own
    id is not an error: the lookup finds the sender, the room test
    passes, and the message comes back to the sender's own socket with
    [from] set to its id. *)
Theorem relay_to_self h o client msg :
  clients h !! c_id client = Some client →
  type_is msg "signal" = true ∨ type_is msg "direct" = true →
  prop msg "to" = VStr (c_id client) →
  handleJoinedClientMessage h o client msg =
  (h, [wsJson h (c_ws client) (forwarded client msg)])
  ∧ (type_is msg "signal" = true →
       forwarded client msg =
       Signal (c_id client) (nullish (prop msg "signal") VNull)).
Proof.
  intros Hc Ht Hto. split.
  - rewrite (relay_dispatch _ _ _ _ Ht). unfold relay_to_target.
    rewrite Hto, Hc. repeat case_bool_decide; done.
  - unfold forwarded. by intros ->.
Qed.

Lemma relay_to_self_witness :
  let client := Client "A" 1 (Some "demo") (Some "r1")
                  (Some (Presence "Ann" "lobby")) in
  let msg := VObj [("type", VStr "signal"); ("to", VStr "A");
                   ("signal", VStr "offer")] in
  handleJoinedClientMessage hub_two_rooms quiet client msg =
  (hub_two_rooms, [wsJson hub_two_rooms 1 (Signal "A" (VStr "offer"))]).
Proof.
  intros client msg.
  destruct (relay_to_self hub_two_rooms quiet client msg) as [H _];
    [reflexivity | left; reflexivity | reflexivity | exact H].
Defined.

(** ** Strings and decimal rendering *)

Lemma append_cons c s t : String c s +:+ t = String c (s +:+ t).
Proof. reflexivity. Qed.

Lemma append_empty_r s : s +:+ "" = s.
Proof. induction s; [done|]. rewrite append_cons. congruence. Qed.

Lemma append_eq_self s t : s +:+ t = s → t = "".
Proof. intros H. apply (inj (String.app s)). by rewrite append_empty_r. Qed.

Lemma toLowerCase_append s t :
  toLowerCase (s +:+ t) = toLowerCase s +:+ toLowerCase t.
Proof.
  induction s; [done|]. rewrite append_cons. simpl. rewrite append_cons.
  congruence.
Qed.

Lemma toLowerCase_length s : String.length (toLowerCase s) = String.length s.
Proof. induction s; simpl; congruence. Qed.

Lemma append_length s t :
  String.length (s +:+ t) = (String.length s + String.length t)%nat.
Proof. induction s; [done|]. rewrite append_cons. simpl. congruence. Qed.

Lemma pretty_N_go_length x s :
  (String.length s ≤ String.length (pretty_N_go x s))%nat.
Proof.
  revert s. induction (N.lt_wf_0 x) as [x _ IH]; intros s.
  destruct (decide (x = 0)%N) as [->|].
  - by rewrite pretty_N_go_0.
  - rewrite pretty_N_go_step by lia.
    etrans; [|apply IH; apply N.div_lt; lia]. simpl. lia.
Qed.

Lemma pretty_N_nonempty (x : N) : pretty x ≠ "".
Proof.
  unfold pretty, pretty_N. case_decide; [done|].
  rewrite pretty_N_go_step by lia. intros Heq.
  pose proof (pretty_N_go_length (x `div` 10)
                (String (pretty_N_char (x `mod` 10)) "")) as Hl.
  rewrite Heq in Hl. simpl in Hl. lia.
Qed.

Lemma pretty_Z_nonempty (z : Z) : pretty z ≠ "".
Proof.
  destruct z as [|p|p]; [done| |done]. apply (pretty_N_nonempty (Npos p)).
Qed.

Lemma suffixed_differs base (z : Z) : base +:+ pretty z ≠ base.
Proof. intros H. by apply append_eq_self, pretty_Z_nonempty in H. Qed.

(** ** Numbers *)

Lemma draw_value_range u : (0 <= draw_value u)%Q ∧ (draw_value u < 1)%Q.
Proof.
  unfold draw_value, Qle, Qlt. simpl. destruct (numer u); simpl; lia.
Qed.

Lemma randomSuffix_range u : (100 ≤ randomSuffix u ≤ 999)%Z.
Proof.
  destruct (draw_value_range u) as [H0 H1]. unfold randomSuffix.
  set (x := (draw_value u * (900 # 1) + (100 # 1))%Q).
  assert (100 # 1 <= x)%Q as Hlo.
  { unfold x. rewrite <- (Qplus_0_l (100 # 1)) at 1.
    apply Qplus_le_compat; [|apply Qle_refl].
    apply Qmult_le_0_compat; [done|]. by unfold Qle. }
  assert (x < 1 * (900 # 1) + (100 # 1))%Q as Hhi.
  { unfold x. apply Qplus_lt_le_compat; [|apply Qle_refl].
    apply Qmult_lt_compat_r; [reflexivity | done]. }
  split.
  - change 100%Z with (Qfloor (inject_Z 100)). by apply Qfloor_resp_le.
  - pose proof (Qfloor_le x) as Hf.
    assert (inject_Z (Qfloor x) < inject_Z 1000)%Q as Hlt
      by (eapply Qle_lt_trans; [exact Hf | exact Hhi]).
    rewrite <- Zlt_Qlt in Hlt. lia.
Qed.
Lemma maxRoomSize_at_least_2 h : (2 ≤ maxRoomSize h)%Z.
Proof.
  unfold maxRoomSize. destruct (default _ _) as [| |raw]; try lia.
  destruct (Qle_bool (2 # 1) raw) eqn:H; [|lia].
  apply Qle_bool_imp_le in H. change 2%Z with (Qfloor (inject_Z 2)).
  by apply Qfloor_resp_le.
Qed.

(** ** The name allocator *)

Lemma random_attempts_Some used base rnd i count candidate :
  random_attempts used base rnd i count = Some candidate →
  ∃ j, (i ≤ j < i + count)%nat
       ∧ candidate = (base +:+ pretty (randomSuffix (rnd j)))
       ∧ (toLowerCase candidate ∉ used)
       ∧ ∀ j', (i ≤ j' < j)%nat →
           toLowerCase (base +:+ pretty (randomSuffix (rnd j'))) ∈ used.
Proof.
  revert i. induction count as [|count IH]; intros i; simpl; [done|].
  case_bool_decide as Hin.
  - intros (j & Hj & -> & Hout & Hbefore)%IH. exists j.
    repeat split; [lia | lia | done |].
    intros j' Hj'. destruct (decide (j' = i)) as [->|]; [done|].
    apply Hbefore. lia.
  - intros [= <-]. exists i. repeat split; [lia | lia | done | lia].
Qed.

Lemma random_attempts_None used base rnd i count :
  random_attempts used base rnd i count = None →
  ∀ j, (i ≤ j < i + count)%nat →
    toLowerCase (base +:+ pretty (randomSuffix (rnd j))) ∈ used.
Proof.
  revert i. induction count as [|count IH]; intros i; simpl; [lia|].
  case_bool_decide as Hin; [|done].
  intros Hn j Hj. destruct (decide (j = i)) as [->|]; [done|].
  apply (IH _ Hn). lia.
Qed.

Lemma sequential_attempts_Some used base n count candidate :
  sequential_attempts used base n count = Some candidate →
  ∃ m, (n ≤ m < n + Z.of_nat count)%Z
       ∧ candidate = (base +:+ pretty m)
       ∧ (toLowerCase candidate ∉ used)
       ∧ ∀ m', (n ≤ m' < m)%Z → toLowerCase (base +:+ pretty m') ∈ used.
Proof.
  revert n. induction count as [|count IH]; intros n; simpl; [done|].
  case_bool_decide as Hin.
  - intros (m & Hm & -> & Hout & Hbefore)%IH. exists m.
    repeat split; [lia | lia | done |].
    intros m' Hm'. destruct (decide (m' = n)) as [->|]; [done|].
    apply Hbefore. lia.
  - intros [= <-]. exists n. repeat split; [lia | lia | done | lia].
Qed.

Lemma sequential_attempts_None used base n count :
  sequential_attempts used base n count = None →
  ∀ m, (n ≤ m < n + Z.of_nat count)%Z → toLowerCase (base +:+ pretty m) ∈ used.
Proof.
  revert n. induction count as [|count IH]; intros n; simpl; [lia|].
  case_bool_decide as Hin; [|done].
  intros Hn m Hm. destruct (decide (m = n)) as [->|]; [done|].
  apply (IH _ Hn). lia.
Qed.

Lemma attempts_9998 : Z.of_nat 9998 = 9998%Z.
Proof. reflexivity. Qed.

Lemma elem_of_used_fold h ignoreId members acc x :
  x ∈ foldl (used_step h ignoreId) acc members ↔
  x ∈ acc
  ∨ ∃ memberId member m,
      memberId ∈ members ∧ excluded ignoreId memberId = false
      ∧ clients h !! memberId = Some member ∧ c_meta member = Some m
      ∧ m_name m ≠ "" ∧ toLowerCase (m_name m) = x.
Proof.
  revert acc. induction members as [|i members IH]; intros acc; simpl.
  - split; [by left|]. intros [?|(?&?&?&[]%elem_of_nil&_)]. done.
  - rewrite IH. unfold used_step. split.
    + intros [Hacc|(j & c & m & Hj & Hrest)].
      * destruct (excluded ignoreId i) eqn:Hex; [by left|].
        destruct (clients h !! i) as [c|] eqn:Hc; [|by left].
        destruct (c_meta c) as [m|] eqn:Hm; [|by left].
        destruct (String.eqb (m_name m) "") eqn:Hn; simpl in Hacc; [by left|].
        apply elem_of_union in Hacc as [->%elem_of_singleton|]; [|by left].
        right. exists i, c, m. rewrite String.eqb_neq in Hn.
        repeat split; try done. apply elem_of_cons. by left.
      * right. exists j, c, m. split; [|done]. apply elem_of_cons. by right.
    + intros [Hacc|(j & c & m & Hj & Hex & Hc & Hm & Hn & Hx)].
      * left. repeat case_match; try done; apply elem_of_union; by right.
      * apply elem_of_cons in Hj as [->|Hj].
        -- left. rewrite Hex, Hc, Hm. apply String.eqb_neq in Hn. rewrite Hn.
           simpl. apply elem_of_union. left. by apply elem_of_singleton.
        -- right. by exists j, c, m.
Qed.

Lemma elem_of_roomUsedNames h key ignoreId x :
  x ∈ roomUsedNames h key ignoreId ↔
  ∃ members memberId member m,
    rooms h !! key = Some members ∧ memberId ∈ members
    ∧ excluded ignoreId memberId = false
    ∧ clients h !! memberId = Some member ∧ c_meta member = Some m
    ∧ m_name m ≠ "" ∧ toLowerCase (m_name m) = x.
Proof.
  unfold roomUsedNames. destruct (rooms h !! key) as [members|]; simpl.
  - rewrite elem_of_used_fold. split.
    + intros [[]%not_elem_of_empty|(j & c & m & ?)]. by exists members, j, c, m.
    + intros (? & j & c & m & [= <-] & ?). right. by exists j, c, m.
  - split; [by intros []%not_elem_of_empty|]. by intros (? & ? & ? & ? & ? & _).
Qed.

Lemma excluded_false ignoreId memberId :
  ignoreId ≠ Some "" → excluded ignoreId memberId = false ↔ Some memberId ≠ ignoreId.
Proof.
  intros Hig. unfold excluded. destruct ignoreId as [ig|]; simpl; [|done].
  destruct (String.eqb ig "") eqn:Heq.
  - apply String.eqb_eq in Heq as ->. done.
  - simpl. case_bool_decide; split; congruence.
Qed.

Lemma toLowerCase_empty s : toLowerCase s = "" → s = "".
Proof. by destruct s. Qed.

Lemma used_iff_taken h key ignoreId x :
  ignoreId ≠ Some "" → x ≠ "" →
  x ∈ roomUsedNames h key ignoreId ↔ name_taken h key ignoreId x.
Proof.
  intros Hig Hx. rewrite elem_of_roomUsedNames. unfold name_taken.
  split.
  - intros (ms & j & c & m & ? & ? & Hex & ? & ? & ? & ?).
    exists ms, j, c, m. rewrite excluded_false in Hex by done. done.
  - intros (ms & j & c & m & ? & ? & Hex & ? & ? & Hl).
    exists ms, j, c, m. rewrite excluded_false by done.
    repeat split; try done. intros Hn. rewrite Hn in Hl. simpl in Hl. congruence.
Qed.

Lemma normalizeDisplayName_nonempty v : normalizeDisplayName v ≠ "".
Proof.
  unfold normalizeDisplayName. destruct (String.eqb _ "") eqn:H; [done|].
  by apply String.eqb_neq.
Qed.

Lemma toLowerCase_append_nonempty base s : base ≠ "" → toLowerCase (base +:+ s) ≠ "".
Proof. destruct base; [done|]. intros _. rewrite append_cons. done. Qed.

(** C3: [uniqueName] returns the normalized base name unchanged exactly
    when its lower-case form is not taken in the room (the member
    [ignoreId] left out). Otherwise it returns the base name with a
    suffix: the first of up to 500 random integers of [100, 999] whose
    candidate is free; failing that the least [n] of 2..9999 whose
    candidate is free; failing that the current time modulo 100000.
    Whenever it returns before that last fallback, the lower-case form of
    the result is not taken. *)
Theorem uniqueName_allocation h o baseName key ignoreId :
  ignoreId ≠ Some "" →
  let base := normalizeDisplayName (VStr baseName) in
  let taken := λ candidate, name_taken h key ignoreId (toLowerCase candidate) in
  let result := uniqueName h o baseName key ignoreId in
  (result = base ↔ ¬ taken base)
  ∧ (taken base →
       (∃ i, (i < 500)%nat
             ∧ (100 ≤ randomSuffix (random o i) ≤ 999)%Z
             ∧ result = random_candidate base o i
             ∧ ¬ taken result
             ∧ ∀ j, (j < i)%nat → taken (random_candidate base o j))
       ∨ ((∀ i, (i < 500)%nat → taken (random_candidate base o i))
          ∧ ∃ n, (2 ≤ n < 10000)%Z
                 ∧ result = sequential_candidate base n
                 ∧ ¬ taken result
                 ∧ ∀ m, (2 ≤ m < n)%Z → taken (sequential_candidate base m))
       ∨ ((∀ i, (i < 500)%nat → taken (random_candidate base o i))
          ∧ (∀ n, (2 ≤ n < 10000)%Z → taken (sequential_candidate base n))
          ∧ result = (base +:+ pretty (Z.rem (now o) 100000)))).
Proof.
  intros Hig base taken result.
  assert (Hbase : base ≠ "") by apply normalizeDisplayName_nonempty.
  assert (Hused : ∀ s, s ≠ "" →
            toLowerCase s ∈ roomUsedNames h key ignoreId ↔ taken s).
  { intros s Hs. apply used_iff_taken; [done|].
    intros ?%toLowerCase_empty. done. }
  assert (Hcand : ∀ s, (base +:+ s) ≠ "").
  { intros s. destruct base; [done|]. by rewrite append_cons. }
  subst result. unfold uniqueName, pick_name. fold base.
  case_bool_decide as Hb.
  - apply Hused in Hb; [|done]. split.
    { split; [|done]. intros Heq. exfalso. revert Heq.
      destruct (random_attempts _ _ _ _ _) as [c|] eqn:Hr.
      - apply random_attempts_Some in Hr as (j & _ & -> & _). apply suffixed_differs.
      - destruct (sequential_attempts _ _ _ _) as [c|] eqn:Hs.
        + apply sequential_attempts_Some in Hs as (m & _ & -> & _).
          apply suffixed_differs.
        + apply suffixed_differs. }
    intros _.
    destruct (random_attempts _ _ _ _ _) as [c|] eqn:Hr.
    { left. apply random_attempts_Some in Hr as (j & Hj & -> & Hout & Hbefore).
      exists j. split; [lia|]. split; [apply randomSuffix_range|].
      split; [done|]. split.
      { intros Ht. apply Hout. by apply Hused. }
      intros j' Hj'. apply Hused; [apply Hcand|]. apply Hbefore. lia. }
    right. pose proof (random_attempts_None _ _ _ _ _ Hr) as Hrand.
    assert (∀ i, (i < 500)%nat → taken (random_candidate base o i)) as Hrand'.
    { intros i Hi. apply Hused; [apply Hcand|]. apply Hrand. lia. }
    destruct (sequential_attempts _ _ _ _) as [c|] eqn:Hs.
    + left. split; [done|].
      apply sequential_attempts_Some in Hs as (m & Hm & -> & Hout & Hbefore).
      rewrite attempts_9998 in Hm. exists m. split; [lia|]. split; [done|].
      split.
      { intros Ht. apply Hout. by apply Hused. }
      intros m' Hm'. apply Hused; [apply Hcand|]. by apply Hbefore.
    + right. split; [done|]. split; [|done].
      intros n Hn. apply Hused; [apply Hcand|].
      apply (sequential_attempts_None _ _ _ _ Hs). rewrite attempts_9998. lia.
  - rewrite Hused in Hb by done. split; [done|]. intros ?. done.
Qed.

Lemma uniqueName_allocation_witness :
  uniqueName hub_two_rooms quiet "ann" "demo::r1" (Some "B") = "ann"
  ↔ ¬ name_taken hub_two_rooms "demo::r1" (Some "B") (toLowerCase "ann").
Proof.
  apply (uniqueName_allocation hub_two_rooms quiet "ann" "demo::r1" (Some "B")).
  discriminate.
Defined.

(** ** Presence patches *)

Lemma normalizePresenceStatus_cases v :
  normalizePresenceStatus v = "playing" ∨ normalizePresenceStatus v = "lobby".
Proof. destruct v; simpl; auto. case_match; auto. Qed.

Lemma joined_room_Some c a r :
  c_app c = Some a → c_room c = Some r → a ≠ "" → r ≠ "" →
  joined_room c = Some (a, r).
Proof.
  unfold joined_room. intros -> -> Ha%String.eqb_neq Hr%String.eqb_neq.
  by rewrite Ha, Hr.
Qed.

Lemma handleSetMeta_invalid h o c patch :
  is_object patch = false →
  handleSetMeta h o c patch
  = (h, [wsJson h (c_ws c) (Error "invalid-meta-patch" NoDetail)]).
Proof. unfold handleSetMeta. by intros ->. Qed.

Lemma handleSetMeta_throws h o c patch :
  is_object patch = true → patch_throws patch = true →
  handleSetMeta h o c patch = (h, []).
Proof.
  unfold handleSetMeta, patch_throws. intros -> Ht. simpl negb. cbv iota.
  by rewrite Ht.
Qed.

Lemma handleSetMeta_stores h o c patch :
  is_object patch = true → patch_throws patch = false →
  let c' := set_meta c (Some (patched_meta h o c patch)) in
  let h' := with_clients h (<[c_id c := c']> (clients h)) in
  handleSetMeta h o c patch = (h', relayPeerMeta h' c' true).
Proof.
  unfold handleSetMeta, patch_throws. intros -> Ht. simpl negb. cbv iota.
  by rewrite Ht.
Qed.

Lemma handleFirstJoin_accepts h o client msg app room :
  join_request msg app room →
  (set_size (members_of h (roomKey app room)) < maxRoomSize h)%Z →
  normalizeMeta_throws (prop msg "meta") = false →
  let h' := hub_after_join h client app room (joining_meta h o client app room msg) in
  handleFirstJoin h o client msg =
  (h', wsJson h' (c_ws client)
         (Welcome (c_id client) app room (members_of h (roomKey app room))
            (map (λ peerId, (peerId, clients h !! peerId ≫= c_meta))
               (members_of h (roomKey app room)))
            (Some (joining_meta h o client app room msg)) (maxRoomSize h))
       :: notify h' (members_of h (roomKey app room)) None
            (PeerJoined (c_id client)
               (Some (joining_meta h o client app room msg)))).
Proof.
  intros (Ht & Ha & Hr & Hva & Hvr) Hsize Hmeta. unfold handleFirstJoin.
  rewrite Ht, Ha, Hr, Hva, Hvr, Hmeta. simpl negb. cbv iota. simpl orb. cbv iota.
  fold (members_of h (roomKey app room)).
  destruct (Z.leb_spec (maxRoomSize h) (set_size (members_of h (roomKey app room))));
    [lia|]. reflexivity.
Qed.

Lemma handleFirstJoin_throws h o client msg app room :
  join_request msg app room →
  (set_size (members_of h (roomKey app room)) < maxRoomSize h)%Z →
  normalizeMeta_throws (prop msg "meta") = true →
  handleFirstJoin h o client msg = (h, []).
Proof.
  intros (Ht & Ha & Hr & Hva & Hvr) Hsize Hmeta. unfold handleFirstJoin.
  rewrite Ht, Ha, Hr, Hva, Hvr, Hmeta. simpl negb. cbv iota. simpl orb. cbv iota.
  fold (members_of h (roomKey app room)).
  destruct (Z.leb_spec (maxRoomSize h) (set_size (members_of h (roomKey app room))));
    [lia|]. reflexivity.
Qed.

Lemma handleFirstJoin_full h o client msg app room :
  join_request msg app room →
  (maxRoomSize h ≤ set_size (members_of h (roomKey app room)))%Z →
  handleFirstJoin h o client msg =
  (h, [wsJson h (c_ws client) (Error "room-full" (Max (maxRoomSize h)))]).
Proof.
  intros (Ht & Ha & Hr & Hva & Hvr) Hsize. unfold handleFirstJoin.
  rewrite Ht, Ha, Hr, Hva, Hvr. simpl negb. cbv iota. simpl orb. cbv iota.
  fold (members_of h (roomKey app room)).
  destruct (Z.leb_spec (maxRoomSize h) (set_size (members_of h (roomKey app room))));
    [done|lia].
Qed.

Lemma handleFirstJoin_cases h o client msg :
  (handleFirstJoin h o client msg).1 = h
  ∨ ∃ app room,
      join_request msg app room
      ∧ (set_size (members_of h (roomKey app room)) < maxRoomSize h)%Z
      ∧ (handleFirstJoin h o client msg).1 =
        hub_after_join h client app room (joining_meta h o client app room msg).
Proof.
  destruct (type_is msg "join") eqn:Ht;
    [|left; unfold handleFirstJoin; by rewrite Ht].
  destruct (prop msg "app") as [| | | |app| |] eqn:Ha;
    try (left; unfold handleFirstJoin; rewrite Ht, Ha; done).
  destruct (prop msg "room") as [| | | |room| |] eqn:Hr;
    try (left; unfold handleFirstJoin; rewrite Ht, Ha, Hr; done).
  destruct (validChannelName (VStr app)) eqn:Hva;
    [|left; unfold handleFirstJoin; rewrite Ht, Ha, Hr, Hva; done].
  destruct (validChannelName (VStr room)) eqn:Hvr;
    [|left; unfold handleFirstJoin; rewrite Ht, Ha, Hr, Hva, Hvr; done].
  assert (join_request msg app room) as Hreq by done.
  destruct (Z.lt_ge_cases (set_size (members_of h (roomKey app room)))
              (maxRoomSize h)) as [Hlt|Hge].
  - destruct (normalizeMeta_throws (prop msg "meta")) eqn:Hmeta.
    + left. by rewrite (handleFirstJoin_throws _ _ _ _ _ _ Hreq Hlt Hmeta).
    + right. exists app, room. split; [done|]. split; [done|].
      by rewrite (handleFirstJoin_accepts _ _ _ _ _ _ Hreq Hlt Hmeta).
  - left. by rewrite (handleFirstJoin_full _ _ _ _ _ _ Hreq Hge).
Qed.

(** ** Sets of member ids *)

Lemma elem_of_set_add j i l : j ∈ set_add i l ↔ j = i ∨ j ∈ l.
Proof.
  unfold set_add. case_bool_decide.
  - split; [by right|]. by intros [->|].
  - rewrite elem_of_app, list_elem_of_singleton. tauto.
Qed.

Lemma NoDup_set_add i l : NoDup l → NoDup (set_add i l).
Proof.
  intros Hl. unfold set_add. case_bool_decide; [done|].
  apply NoDup_app. split; [done|]. split; [|apply NoDup_singleton].
  intros j Hj ->%list_elem_of_singleton. done.
Qed.

Lemma set_add_nonempty i l : set_add i l ≠ [].
Proof.
  intros Hn. assert (i ∈ set_add i l) as Hi by (apply elem_of_set_add; by left).
  rewrite Hn in Hi. by apply elem_of_nil in Hi.
Qed.

Lemma set_size_set_add i l : (set_size (set_add i l) ≤ set_size l + 1)%Z.
Proof.
  unfold set_add, set_size. case_bool_decide; [lia|].
  rewrite length_app. simpl. lia.
Qed.

Lemma elem_of_set_delete j i l : j ∈ set_delete i l ↔ j ∈ l ∧ j ≠ i.
Proof. unfold set_delete. rewrite list_elem_of_filter. tauto. Qed.

Lemma NoDup_set_delete i l : NoDup l → NoDup (set_delete i l).
Proof. apply NoDup_filter. Qed.

Lemma set_size_set_delete i l : (set_size (set_delete i l) ≤ set_size l)%Z.
Proof. unfold set_delete, set_size. pose proof (length_filter (λ y, y ≠ i) l). lia. Qed.

Lemma set_size_zero l : (set_size l =? 0)%Z = true ↔ l = [].
Proof.
  unfold set_size. rewrite Z.eqb_eq. destruct l; simpl; split; try done; lia.
Qed.

(** ** The invariants hold of every hub of a run *)

Lemma validChannelName_nonempty s : validChannelName (VStr s) = true → s ≠ "".
Proof. intros H ->. done. Qed.

Lemma members_of_Some h key members :
  rooms h !! key = Some members → members_of h key = members.
Proof. unfold members_of. by intros ->. Qed.

Lemma elem_of_members_of h key i :
  i ∈ members_of h key ↔ ∃ members, rooms h !! key = Some members ∧ i ∈ members.
Proof.
  unfold members_of. destruct (rooms h !! key) as [ms|]; simpl.
  - split; [by exists ms|]. by intros (? & [= <-] & ?).
  - split; [by intros ?%elem_of_nil|]. by intros (? & ? & ?).
Qed.

Lemma wf_members_of h key :
  wf h → NoDup (members_of h key) ∧ (set_size (members_of h key) ≤ maxRoomSize h)%Z.
Proof.
  intros Hwf. unfold members_of. destruct (rooms h !! key) as [ms|] eqn:Hms; simpl.
  - by destruct (wf_room h Hwf key ms Hms) as (_ & ? & ?).
  - split; [apply NoDup_nil_2|]. pose proof (maxRoomSize_at_least_2 h).
    unfold set_size. simpl. lia.
Qed.

Lemma wf_unjoined h i c :
  wf h → clients h !! i = Some c →
  truthy (c_app c) && truthy (c_room c) = false →
  c_app c = None ∧ c_room c = None ∧ c_meta c = None ∧ joined_room c = None
  ∧ ∀ key, i ∉ members_of h key.
Proof.
  intros Hwf Hc Hnot.
  destruct (wf_client h Hwf i c Hc) as (_ & _ & _ & Hst).
  destruct (c_app c) as [a|] eqn:Ha, (c_room c) as [r|] eqn:Hr; try done.
  - destruct Hst as (Hva%validChannelName_nonempty & Hvr%validChannelName_nonempty & _).
    apply String.eqb_neq in Hva, Hvr. simpl in Hnot. by rewrite Hva, Hvr in Hnot.
  - repeat split; try done.
    + unfold joined_room. by rewrite Ha.
    + intros key (ms & Hms & Hi)%elem_of_members_of.
      destruct (wf_member h Hwf key ms i Hms Hi) as (c' & a & r & Hc' & Ha' & _).
      congruence.
Qed.

Lemma wf_joined h i c :
  wf h → clients h !! i = Some c →
  truthy (c_app c) && truthy (c_room c) = true →
  ∃ a r m, c_app c = Some a ∧ c_room c = Some r ∧ c_meta c = Some m
           ∧ joined_room c = Some (a, r) ∧ i ∈ members_of h (roomKey a r).
Proof.
  intros Hwf Hc Hyes.
  destruct (wf_client h Hwf i c Hc) as (_ & _ & _ & Hst).
  destruct (c_app c) as [a|] eqn:Ha, (c_room c) as [r|] eqn:Hr; try done.
  destruct Hst as (Hva%validChannelName_nonempty & Hvr%validChannelName_nonempty
                   & [m Hm] & ms & Hms & Hi).
  exists a, r, m. repeat split; try done.
  - unfold joined_room. rewrite Ha, Hr.
    apply String.eqb_neq in Hva, Hvr. by rewrite Hva, Hvr.
  - apply elem_of_members_of. by exists ms.
Qed.

Lemma wf_new env : wf (new_hub env).
Proof. split; simpl; intros *; by rewrite lookup_empty. Qed.

Lemma wf_accept h serverSocket clientId :
  wf h → fresh h (Accepted serverSocket clientId) →
  wf (accept h serverSocket clientId).
Proof.
  intros Hwf (Hsock & Hne & Hid).
  assert (clients h !! clientId = None) as Hnew.
  { destruct (clients h !! clientId) as [c|] eqn:Hc; [|done].
    destruct (wf_client h Hwf _ _ Hc) as (_ & _ & Hws & _). by destruct (Hid (c_ws c)). }
  split; unfold accept; simpl.
  - intros i c. destruct (decide (i = clientId)) as [->|Hi].
    + rewrite lookup_insert_eq. intros [= <-]. unfold client_ok. simpl.
      by rewrite lookup_insert_eq.
    + rewrite lookup_insert_ne by done. intros Hc.
      destruct (wf_client h Hwf _ _ Hc) as (? & ? & Hws & Hst).
      unfold client_ok. simpl. rewrite lookup_insert_ne by congruence. done.
  - intros key ms i Hms Hi.
    destruct (wf_member h Hwf key ms i Hms Hi) as (c & a & r & Hc & ?).
    exists c, a, r. simpl. rewrite lookup_insert_ne by congruence. done.
  - apply (wf_room h Hwf).
Qed.

Lemma wf_hub_after_join h i c app room nextMeta :
  wf h → clients h !! i = Some c →
  truthy (c_app c) && truthy (c_room c) = false →
  validChannelName (VStr app) = true → validChannelName (VStr room) = true →
  (set_size (members_of h (roomKey app room)) < maxRoomSize h)%Z →
  wf (hub_after_join h c app room nextMeta).
Proof.
  intros Hwf Hc Hnot Hva Hvr Hsize.
  destruct (wf_unjoined h i c Hwf Hc Hnot) as (Ha & Hr & _ & _ & Hout).
  destruct (wf_client h Hwf i c Hc) as (Hid & Hne & Hws & _).
  destruct (wf_members_of h (roomKey app room) Hwf) as [Hnd _].
  unfold hub_after_join. rewrite Hid. fold (members_of h (roomKey app room)).
  set (key := roomKey app room) in *.
  split; simpl.
  - intros j cj. destruct (decide (j = i)) as [->|Hj].
    + rewrite lookup_insert_eq. intros [= <-]. unfold client_ok. simpl.
      repeat split; try done. exists (set_add i (members_of h key)).
      fold key. rewrite lookup_insert_eq. split; [done|].
      apply elem_of_set_add. by left.
    + rewrite lookup_insert_ne by done. intros Hcj.
      destruct (wf_client h Hwf _ _ Hcj) as (? & ? & ? & Hst).
      unfold client_ok. simpl. repeat split; try done.
      destruct (c_app cj) as [a|], (c_room cj) as [r|]; try done.
      destruct Hst as (? & ? & ? & ms & Hms & Hjm). repeat split; try done.
      destruct (decide (roomKey a r = key)) as [Heq|Hk].
      * rewrite Heq. rewrite lookup_insert_eq. eexists. split; [done|].
        apply elem_of_set_add. right. apply elem_of_members_of.
        exists ms. by rewrite <- Heq.
      * rewrite lookup_insert_ne by done. by exists ms.
  - intros key' ms j. destruct (decide (key' = key)) as [->|Hk].
    + rewrite lookup_insert_eq. intros [= <-] [->|Hj]%elem_of_set_add.
      * eexists _, app, room. simpl. rewrite lookup_insert_eq. done.
      * assert (j ≠ i) by (intros ->; by destruct (Hout key)).
        apply elem_of_members_of in Hj as (ms & Hms & Hj).
        destruct (wf_member h Hwf key ms j Hms Hj) as (cj & a & r & ? & ?).
        exists cj, a, r. simpl. by rewrite lookup_insert_ne.
    + rewrite lookup_insert_ne by done. intros Hms Hj.
      assert (j ≠ i).
      { intros ->. destruct (Hout key'). apply elem_of_members_of. by exists ms. }
      destruct (wf_member h Hwf key' ms j Hms Hj) as (cj & a & r & ? & ?).
      exists cj, a, r. simpl. by rewrite lookup_insert_ne.
  - intros key' ms. destruct (decide (key' = key)) as [->|Hk].
    + rewrite lookup_insert_eq. intros [= <-].
      split; [apply set_add_nonempty|]. split; [by apply NoDup_set_add|].
      pose proof (set_size_set_add i (members_of h key)).
      change (maxRoomSize _) with (maxRoomSize h). lia.
    + rewrite lookup_insert_ne by done. apply (wf_room h Hwf).
Qed.

Lemma joined_room_inv c a r :
  joined_room c = Some (a, r) →
  c_app c = Some a ∧ c_room c = Some r ∧ a ≠ "" ∧ r ≠ ""
  ∧ truthy (c_app c) && truthy (c_room c) = true.
Proof.
  unfold joined_room. destruct (c_app c) as [a'|], (c_room c) as [r'|]; try done.
  simpl. destruct (String.eqb a' "") eqn:Ha, (String.eqb r' "") eqn:Hr; try done.
  intros [= <- <-]. by apply String.eqb_neq in Ha, Hr.
Qed.

Lemma leaveRoom_joined h clientId c a r members :
  clients h !! clientId = Some c → joined_room c = Some (a, r) →
  rooms h !! roomKey a r = Some members →
  leaveRoom h clientId =
  (hub_after_leave h clientId (roomKey a r),
   notify (with_rooms h (<[roomKey a r := set_delete clientId members]> (rooms h)))
     (set_delete clientId members) None (PeerLeft clientId)).
Proof.
  intros Hc Hj Hms. unfold leaveRoom, hub_after_leave.
  rewrite Hc, Hj, Hms, (members_of_Some _ _ _ Hms).
  destruct (set_size (set_delete clientId members) =? 0)%Z eqn:Hz.
  - apply set_size_zero in Hz. rewrite Hz. simpl.
    by rewrite delete_insert_eq.
  - case_decide as Hnil; [|done].
    apply set_size_zero in Hnil. congruence.
Qed.

Lemma leaveRoom_unjoined h clientId c :
  clients h !! clientId = Some c → joined_room c = None →
  leaveRoom h clientId = (with_clients h (delete clientId (clients h)), []).
Proof. intros Hc Hj. unfold leaveRoom. by rewrite Hc, Hj. Qed.

Lemma wf_leaveRoom h clientId : wf h → wf (leaveRoom h clientId).1.
Proof.
  intros Hwf. destruct (clients h !! clientId) as [c|] eqn:Hc;
    [|by rewrite leaveRoom_unknown].
  destruct (truthy (c_app c) && truthy (c_room c)) eqn:Hj.
  - destruct (wf_joined h _ c Hwf Hc Hj) as (a & r & m & Ha & Hr & _ & Hjr & Hin).
    pose proof Hin as (ms & Hms & Hi)%elem_of_members_of.
    rewrite (leaveRoom_joined _ _ _ _ _ _ Hc Hjr Hms). simpl.
    unfold hub_after_leave. rewrite (members_of_Some _ _ _ Hms).
    set (key := roomKey a r) in *.
    assert (∀ key', key' ≠ key →
              (if decide (set_delete clientId ms = []) then delete key (rooms h)
               else <[key:=set_delete clientId ms]> (rooms h)) !! key'
              = rooms h !! key') as Hother.
    { intros key' Hk. case_decide;
        [by rewrite lookup_delete_ne | by rewrite lookup_insert_ne]. }
    assert (∀ ms', (if decide (set_delete clientId ms = []) then delete key (rooms h)
               else <[key:=set_delete clientId ms]> (rooms h)) !! key = Some ms' →
               ms' = set_delete clientId ms ∧ ms' ≠ []) as Hsame.
    { intros ms'. case_decide.
      - by rewrite lookup_delete_eq.
      - rewrite lookup_insert_eq. by intros [= <-]. }
    split; simpl.
    + intros j cj. destruct (decide (j = clientId)) as [->|Hne];
        [by rewrite lookup_delete_eq|].
      rewrite lookup_delete_ne by done. intros Hcj.
      destruct (wf_client h Hwf _ _ Hcj) as (? & ? & ? & Hst).
      unfold client_ok. simpl. repeat split; try done.
      destruct (c_app cj) as [a'|], (c_room cj) as [r'|]; try done.
      destruct Hst as (? & ? & ? & ms' & Hms' & Hjm). repeat split; try done.
      destruct (decide (roomKey a' r' = key)) as [Heq|Hk].
      * rewrite Heq in *. assert (ms' = ms) as -> by congruence.
        assert (j ∈ set_delete clientId ms) as Hjd by (by apply elem_of_set_delete).
        exists (set_delete clientId ms). split; [|done].
        case_decide as Hnil; [rewrite Hnil in Hjd; by apply elem_of_nil in Hjd|].
        by rewrite lookup_insert_eq.
      * rewrite Hother by done. by exists ms'.
    + intros key' ms' j Hms' Hj'. destruct (decide (key' = key)) as [->|Hk].
      * apply Hsame in Hms' as [-> _].
        apply elem_of_set_delete in Hj' as [Hj' Hne].
        destruct (wf_member h Hwf key ms j Hms Hj') as (cj & a' & r' & ? & ?).
        exists cj, a', r'. simpl. by rewrite lookup_delete_ne.
      * rewrite Hother in Hms' by done.
        destruct (wf_member h Hwf key' ms' j Hms' Hj') as (cj & a' & r' & Hcj & Ha' & Hr' & Hkey).
        assert (j ≠ clientId).
        { intros ->. assert (cj = c) as -> by congruence.
          apply Hk. rewrite <- Hkey. unfold key. congruence. }
        exists cj, a', r'. simpl. by rewrite lookup_delete_ne.
    + intros key' ms'. destruct (decide (key' = key)) as [->|Hk].
      * intros [-> Hne]%Hsame. split; [done|].
        destruct (wf_room h Hwf key ms Hms) as (_ & Hnd & Hsz).
        split; [by apply NoDup_set_delete|].
        pose proof (set_size_set_delete clientId ms).
        change (maxRoomSize _) with (maxRoomSize h). lia.
      * rewrite Hother by done. apply (wf_room h Hwf).
  - destruct (wf_unjoined h _ c Hwf Hc Hj) as (_ & _ & _ & Hjr & Hout).
    rewrite (leaveRoom_unjoined _ _ _ Hc Hjr). split; simpl.
    + intros j cj. destruct (decide (j = clientId)) as [->|Hne];
        [by rewrite lookup_delete_eq|].
      rewrite lookup_delete_ne by done. apply (wf_client h Hwf).
    + intros key ms j Hms Hjm.
      assert (j ≠ clientId).
      { intros ->. destruct (Hout key). apply elem_of_members_of. by exists ms. }
      destruct (wf_member h Hwf key ms j Hms Hjm) as (cj & a' & r' & ? & ?).
      exists cj, a', r'. simpl. by rewrite lookup_delete_ne.
    + apply (wf_room h Hwf).
Qed.

Lemma handleSetMeta_name h o c patch :
  (handleSetMeta h o c patch).1 = h
  ∨ ∃ next,
      (handleSetMeta h o c patch).1 =
        with_clients h (<[c_id c := set_meta c (Some next)]> (clients h))
      ∧ (m_name next = from_option m_name "Player" (c_meta c)
         ∨ m_name next =
             uniqueName h o (normalizeDisplayName (prop patch "name"))
               (roomKey (template (c_app c)) (template (c_room c)))
               (Some (c_id c))).
Proof.
  destruct (is_object patch) eqn:Hobj;
    [|left; by rewrite handleSetMeta_invalid].
  destruct (patch_throws patch) eqn:Ht; [left; by rewrite handleSetMeta_throws|].
  right. rewrite handleSetMeta_stores by done.
  exists (patched_meta h o c patch). split; [done|]. simpl.
  destruct (hasOwnProperty patch "name"); auto.
Qed.

Lemma wf_set_meta h i c next :
  wf h → clients h !! i = Some c →
  truthy (c_app c) && truthy (c_room c) = true →
  wf (with_clients h (<[c_id c := set_meta c (Some next)]> (clients h))).
Proof.
  intros Hwf Hc Hj.
  destruct (wf_client h Hwf i c Hc) as (Hid & Hne & Hws & Hst).
  destruct (wf_joined h _ c Hwf Hc Hj) as (a & r & m & Ha & Hr & _).
  rewrite Hid. split; simpl.
  - intros j cj. destruct (decide (j = i)) as [->|Hji].
    + rewrite lookup_insert_eq. intros [= <-]. unfold client_ok. simpl.
      rewrite Ha, Hr in *. destruct Hst as (? & ? & ? & ?). done.
    + rewrite lookup_insert_ne by done. apply (wf_client h Hwf).
  - intros key ms j Hms Hjm.
    destruct (wf_member h Hwf key ms j Hms Hjm) as (cj & a' & r' & Hcj & ? & ? & ?).
    destruct (decide (j = i)) as [->|Hji].
    + assert (cj = c) as -> by congruence.
      eexists _, a', r'. simpl. rewrite lookup_insert_eq. done.
    + exists cj, a', r'. simpl. by rewrite lookup_insert_ne.
  - apply (wf_room h Hwf).
Qed.

Lemma handleJoinedClientMessage_state h o c msg :
  (handleJoinedClientMessage h o c msg).1 = h
  ∨ (type_is msg "set-meta" = true
     ∧ handleJoinedClientMessage h o c msg = handleSetMeta h o c (prop msg "patch")).
Proof.
  unfold handleJoinedClientMessage, relay_to_target.
  repeat (case_match; simpl; auto).
Qed.

(** Every way a message can change the hub: not at all, by a metadata
    patch of a joined client, or by the join of a client that had not
    joined. *)
Lemma handleMessage_cases h o ws parsed :
  (handleMessage h o ws parsed).1 = h
  ∨ (∃ i c next,
       clients h !! i = Some c
       ∧ truthy (c_app c) && truthy (c_room c) = true
       ∧ (handleMessage h o ws parsed).1 =
           with_clients h (<[c_id c := set_meta c (Some next)]> (clients h))
       ∧ (m_name next = from_option m_name "Player" (c_meta c)
          ∨ ∃ baseName,
              m_name next =
              uniqueName h o baseName
                (roomKey (template (c_app c)) (template (c_room c)))
                (Some (c_id c))))
  ∨ (∃ i c app room msg,
       clients h !! i = Some c
       ∧ truthy (c_app c) && truthy (c_room c) = false
       ∧ join_request msg app room
       ∧ (set_size (members_of h (roomKey app room)) < maxRoomSize h)%Z
       ∧ (handleMessage h o ws parsed).1 =
           hub_after_join h c app room (joining_meta h o c app room msg)).
Proof.
  unfold handleMessage.
  destruct (wsToClientId h !! ws) as [i|]; [|by left].
  destruct (String.eqb i ""); [by left|].
  destruct (clients h !! i) as [c|] eqn:Hc; [|by left].
  destruct parsed as [msg|]; [|by left].
  assert (msg = VNull
          ∨ ∀ x y : hub * list emission,
              match msg with VNull => x | _ => y end = y) as [->| ->]
    by (destruct msg; auto); [by left|].
  destruct (truthy (c_app c) && truthy (c_room c)) eqn:Hj.
  - destruct (handleJoinedClientMessage_state h o c msg) as [->|[_ ->]];
      [by left|].
    destruct (handleSetMeta_name h o c (prop msg "patch"))
      as [->|(next & -> & Hname)]; [by left|].
    right. left. exists i, c, next. repeat split; try done.
    destruct Hname as [?|?]; [by left|right; by eexists].
  - destruct (handleFirstJoin_cases h o c msg)
      as [->|(app & room & Hreq & Hsz & ->)]; [by left|].
    right. right. by exists i, c, app, room, msg.
Qed.

Lemma wf_handleMessage h o ws parsed : wf h → wf (handleMessage h o ws parsed).1.
Proof.
  intros Hwf.
  destruct (handleMessage_cases h o ws parsed)
    as [->|[(i & c & next & Hc & Hj & -> & _)
           |(i & c & app & room & msg & Hc & Hj
             & (_ & _ & _ & Hva & Hvr) & Hsz & ->)]].
  - done.
  - by eapply wf_set_meta.
  - by eapply wf_hub_after_join.
Qed.

Lemma wf_handle h e : wf h → fresh h e → wf (handle h e).1.
Proof.
  intros Hwf Hfresh. destruct e as [s i|ws parsed o|i]; simpl.
  - by apply wf_accept.
  - by apply wf_handleMessage.
  - by apply wf_leaveRoom.
Qed.

Lemma reachable_wf env h : reachable env h → wf h.
Proof. induction 1; [apply wf_new | by apply wf_handle]. Qed.

Lemma handle_env h e : env_MAX_ROOM_SIZE (handle h e).1 = env_MAX_ROOM_SIZE h.
Proof.
  destruct e as [s i|ws parsed o|i]; simpl; [done| |].
  - by destruct (handleMessage_cases h o ws parsed)
      as [->|[(? & ? & ? & _ & _ & -> & _)
             |(? & ? & ? & ? & ? & _ & _ & _ & _ & ->)]].
  - unfold leaveRoom. destruct (clients h !! i) as [c|]; [|done].
    destruct (joined_room c) as [[a r]|]; [|done].
    destruct (rooms h !! roomKey a r) as [ms|]; [|done].
    by destruct (set_size (set_delete i ms) =? 0)%Z.
Qed.

Lemma reachable_env env h : reachable env h → env_MAX_ROOM_SIZE h = env.
Proof. induction 1 as [|h e _ IH _]; [done|]. by rewrite handle_env. Qed.

(** ** Capacity *)

Lemma reachable_maxRoomSize env h :
  reachable env h → maxRoomSize h = maxRoomSize (new_hub env).
Proof. intros Hr. unfold maxRoomSize. by rewrite (reachable_env _ _ Hr). Qed.



(** ** Rooms are present exactly while they have members *)

Lemma room_present_iff h key :
  wf h → is_Some (rooms h !! key) ↔ members_of h key ≠ [].
Proof.
  intros Hwf. unfold members_of.
  destruct (rooms h !! key) as [ms|] eqn:Hms; simpl.
  - split; [|by eexists]. intros _. by destruct (wf_room h Hwf key ms Hms).
  - split; [by intros [? ?]|done].
Qed.

Lemma set_delete_singleton i : set_delete i [i] = [].
Proof.
  unfold set_delete. rewrite filter_cons. by rewrite decide_False by (by intros ?).
Qed.

(** C6: in every hub of a run, and so after every operation, a room key
    is in the registry exactly when the room has members: no empty
    member set is ever stored, and the teardown that removes the last
    member of a room deletes its key in that same step. *)
Theorem room_present_iff_nonempty env h :
  reachable env h →
  (∀ key, is_Some (rooms h !! key) ↔ members_of h key ≠ [])
  ∧ (∀ key members, rooms h !! key = Some members → members ≠ [])
  ∧ (∀ e key, fresh h e →
       is_Some (rooms (handle h e).1 !! key)
       ↔ members_of (handle h e).1 key ≠ [])
  ∧ (∀ clientId key, members_of h key = [clientId] →
       rooms (leaveRoom h clientId).1 !! key = None).
Proof.
  intros Hr. pose proof (reachable_wf _ _ Hr) as Hwf.
  split; [|split; [|split]].
  - intros key. by apply room_present_iff.
  - intros key ms Hms. by destruct (wf_room h Hwf key ms Hms).
  - intros e key Hfresh. by apply room_present_iff, wf_handle.
  - intros clientId key Hms.
    assert (rooms h !! key = Some [clientId]) as Hroom.
    { unfold members_of in Hms. by destruct (rooms h !! key); simplify_eq/=. }
    destruct (wf_member h Hwf key [clientId] clientId Hroom)
      as (c & a & r & Hc & Ha & Hrm & Hkey); [by apply list_elem_of_singleton|].
    destruct (wf_client h Hwf _ _ Hc) as (_ & _ & _ & Hst).
    rewrite Ha, Hrm in Hst.
    destruct Hst as (Hva%validChannelName_nonempty & Hvr%validChannelName_nonempty & _).
    pose proof (joined_room_Some c a r Ha Hrm Hva Hvr) as Hj.
    rewrite <- Hkey in Hroom.
    rewrite (leaveRoom_joined _ _ _ _ _ _ Hc Hj Hroom). simpl.
    rewrite (members_of_Some _ _ _ Hroom), set_delete_singleton. simpl.
    rewrite <- Hkey. apply lookup_delete_eq.
Qed.

Lemma reachable_hub_alone : reachable None hub_alone.
Proof.
  apply (reachable_step None (accept (new_hub None) 3 "C")
           (Message 3 (Some join_demo) quiet)); [|exact I].
  apply (reachable_step None (new_hub None) (Accepted 3 "C")).
  - apply reachable_new.
  - split; [reflexivity|]. split; [discriminate|]. intros ws. discriminate.
Qed.

Lemma room_present_iff_nonempty_witness :
  rooms (leaveRoom hub_alone "C").1 !! "demo::r1" = None.
Proof.
  destruct (room_present_iff_nonempty None hub_alone reachable_hub_alone)
    as (_ & _ & _ & H).
  apply (H "C" "demo::r1"). reflexivity.
Defined.

(** ** Ordering of the join handshake *)

Lemma notify_each h peers payload (P : string → emission → Prop) :
  (∀ p, p ∈ peers →
     ∃ peer, clients h !! p = Some peer ∧ P p (wsJson h (c_ws peer) payload)) →
  Forall2 P peers (notify h peers None payload).
Proof.
  unfold notify. induction peers as [|p peers IH]; intros Hall; simpl.
  - constructor.
  - destruct (Hall p) as (peer & Hp & HP); [apply elem_of_cons; by left|].
    rewrite Hp. rewrite ?bool_decide_eq_false_2 by done. simpl.
    constructor; [done|]. apply IH.
    intros q Hq. apply Hall. apply elem_of_cons. by right.
Qed.


Lemma reachable_hub_with_guest : reachable None hub_with_guest.
Proof.
  apply (reachable_step None hub_alone (Accepted 4 "D")).
  - apply reachable_hub_alone.
  - split; [reflexivity|]. split; [discriminate|].
    assert (wsToClientId hub_alone = {[ 3 := "C" ]}) as -> by reflexivity.
    intros ws [_ Hid]%lookup_singleton_Some. discriminate.
Qed.

Lemma reachable_hub_pair : reachable None hub_pair.
Proof.
  apply (reachable_step None hub_with_guest (Message 4 (Some join_demo) quiet));
    [apply reachable_hub_with_guest|exact I].
Qed.



(** C1: a join with valid names for a room that has fewer members than
    the limit is not always accepted. In the hub where [C] is alone in
    [demo]/[r1] (limit 64) and [D] has connected, [D]'s join with the
    metadata [{"name": {"toString": 1}}] makes [normalizeDisplayName]
    throw: the hub is left as it was, [D] is no member, and nothing is
    sent. *)
Theorem join_meta_throws :
  reachable None hub_with_guest
  ∧ clients hub_with_guest !! "D" = Some guest
  ∧ join_request join_odd "demo" "r1"
  ∧ (set_size (members_of hub_with_guest (roomKey "demo" "r1"))
     < maxRoomSize hub_with_guest)%Z
  ∧ normalizeMeta_throws (prop join_odd "meta") = true
  ∧ handleMessage hub_with_guest quiet 4 (Some join_odd) = (hub_with_guest, [])
  ∧ members_of hub_with_guest (roomKey "demo" "r1") = ["C"].
Proof.
  split; [apply reachable_hub_with_guest|]. split; [reflexivity|].
  split; [repeat split; reflexivity|]. repeat split; reflexivity.
Qed.



(** ** Decimal renderings are their own lower case *)

Lemma lower_char_digit x : lower_char (pretty_N_char x) = pretty_N_char x.
Proof. unfold pretty_N_char. by repeat case_match. Qed.

Lemma toLowerCase_pretty_N_go x s :
  toLowerCase s = s → toLowerCase (pretty_N_go x s) = pretty_N_go x s.
Proof.
  revert s. induction (N.lt_wf_0 x) as [x _ IH]; intros s Hs.
  destruct (decide (x = 0)%N) as [->|]; [by rewrite pretty_N_go_0|].
  rewrite pretty_N_go_step by lia. apply IH; [apply N.div_lt; lia|].
  simpl. by rewrite lower_char_digit, Hs.
Qed.

Lemma toLowerCase_pretty_N (x : N) : toLowerCase (pretty x) = pretty x.
Proof.
  unfold pretty, pretty_N. case_decide; [done|]. by apply toLowerCase_pretty_N_go.
Qed.

Lemma toLowerCase_pretty_Z (z : Z) : toLowerCase (pretty z) = pretty z.
Proof.
  destruct z as [|p|p]; [done|apply (toLowerCase_pretty_N (Npos p))|].
  change (pretty (Z.neg p)) with ("-" +:+ pretty (Npos p)).
  by rewrite toLowerCase_append, toLowerCase_pretty_N.
Qed.

Lemma sequential_candidate_inj base n m :
  toLowerCase (sequential_candidate base n)
  = toLowerCase (sequential_candidate base m) → n = m.
Proof.
  unfold sequential_candidate. rewrite !toLowerCase_append, !toLowerCase_pretty_Z.
  intros H%(inj (String.app _)). by apply (inj pretty) in H.
Qed.

Lemma sequential_candidate_not_base base n :
  toLowerCase (sequential_candidate base n) ≠ toLowerCase base.
Proof.
  unfold sequential_candidate. rewrite toLowerCase_append, toLowerCase_pretty_Z.
  intros H%append_eq_self. by apply pretty_Z_nonempty in H.
Qed.

Lemma NoDup_sequential_pool base : NoDup (sequential_pool base).
Proof.
  unfold sequential_pool. apply NoDup_cons. split.
  - intros (n & Hn & _)%list_elem_of_fmap.
    symmetry in Hn. by apply sequential_candidate_not_base in Hn.
  - apply NoDup_fmap_2_strong; [|apply NoDup_seqZ].
    intros n m _ _. apply sequential_candidate_inj.
Qed.

Lemma length_sequential_pool base :
  Z.of_nat (length (sequential_pool base)) = 9999%Z.
Proof.
  unfold sequential_pool. cbn [length]. rewrite length_fmap, length_seqZ. lia.
Qed.

(** ** A used-name set below 9999 names leaves a free candidate *)

Lemma pick_name_free used base o :
  (Z.of_nat (size used) < 9999)%Z → toLowerCase (pick_name used base o) ∉ used.
Proof.
  intros Hsize. unfold pick_name. case_bool_decide as Hb; [|done].
  destruct (random_attempts _ _ _ _ _) as [c|] eqn:Hr.
  { by apply random_attempts_Some in Hr as (_ & _ & _ & ? & _). }
  destruct (sequential_attempts _ _ _ _) as [c|] eqn:Hs.
  { by apply sequential_attempts_Some in Hs as (_ & _ & _ & ? & _). }
  exfalso.
  assert (list_to_set (sequential_pool base) ⊆ used) as Hsub.
  { intros x [->|(n & -> & Hn%elem_of_seqZ)%list_elem_of_fmap]%elem_of_list_to_set%elem_of_cons;
      [done|].
    apply (sequential_attempts_None _ _ _ _ Hs). rewrite attempts_9998. lia. }
  apply subseteq_size in Hsub.
  rewrite size_list_to_set in Hsub by apply NoDup_sequential_pool.
  pose proof (length_sequential_pool base). lia.
Qed.

Lemma pick_name_nonempty used base o : base ≠ "" → pick_name used base o ≠ "".
Proof.
  intros Hb. unfold pick_name. case_bool_decide; [|done].
  assert (∀ s, (base +:+ s) ≠ "") as Hc.
  { intros s Hs. apply Hb. destruct base; [done|by rewrite append_cons in Hs]. }
  destruct (random_attempts _ _ _ _ _) as [c|] eqn:Hr.
  { apply random_attempts_Some in Hr as (j & _ & -> & _). apply Hc. }
  destruct (sequential_attempts _ _ _ _) as [c|] eqn:Hs.
  { apply sequential_attempts_Some in Hs as (m & _ & -> & _). apply Hc. }
  apply Hc.
Qed.

Lemma uniqueName_nonempty h o baseName key ignoreId :
  uniqueName h o baseName key ignoreId ≠ "".
Proof. apply pick_name_nonempty, normalizeDisplayName_nonempty. Qed.

(** ** The used-name set is no larger than the members it reads *)

Lemma size_add_one (x : string) (X : gset string) :
  (size ({[ x ]} ∪ X) ≤ S (size X))%nat.
Proof.
  rewrite size_union_alt, size_singleton.
  assert (size (X ∖ {[x]}) ≤ size X)%nat as Hle.
  { apply subseteq_size. by intros y [? _]%elem_of_difference. }
  lia.
Qed.

Lemma size_used_fold h ignoreId members acc :
  (size (foldl (used_step h ignoreId) acc members)
   ≤ size acc + length (filter (λ j, excluded ignoreId j = false) members))%nat.
Proof.
  revert acc. induction members as [|i members IH]; intros acc; simpl; [lia|].
  etrans; [apply IH|]. rewrite filter_cons. unfold used_step.
  destruct (excluded ignoreId i) eqn:Hex.
  - rewrite decide_False by done. lia.
  - rewrite decide_True by done. simpl.
    destruct (clients h !! i) as [c|]; [|lia].
    destruct (c_meta c) as [m|]; [|lia].
    destruct (negb _); [|lia].
    pose proof (size_add_one (toLowerCase (m_name m)) acc). lia.
Qed.

Lemma excluded_id i j : i ≠ "" → excluded (Some i) j = false ↔ j ≠ i.
Proof.
  intros Hi. rewrite excluded_false by congruence. split; congruence.
Qed.

Lemma size_roomUsedNames h key i :
  i ≠ "" →
  (size (roomUsedNames h key (Some i))
   ≤ length (set_delete i (members_of h key)))%nat.
Proof.
  intros Hi. unfold roomUsedNames, members_of.
  destruct (rooms h !! key) as [ms|];
    [|rewrite size_empty; apply Nat.le_0_l].
  etrans; [apply size_used_fold|]. rewrite size_empty. simpl.
  unfold set_delete. apply Nat.eq_le_incl. f_equal.
  apply list_filter_iff. intros j. by apply excluded_id.
Qed.

(** ** Steps that keep display names unique *)

Lemma fresh_name_differs h key i j nj new :
  i ≠ "" → new ≠ "" →
  toLowerCase new ∉ roomUsedNames h key (Some i) →
  j ∈ members_of h key → j ≠ i → display_name h j = Some nj →
  toLowerCase new ≠ toLowerCase nj.
Proof.
  intros Hi Hnew Hfree (ms & Hms & Hj)%elem_of_members_of Hji Hnj Heq.
  destruct (decide (nj = "")) as [->|Hne].
  { by apply toLowerCase_empty in Heq. }
  apply Hfree. rewrite Heq. apply elem_of_roomUsedNames.
  unfold display_name in Hnj.
  destruct (clients h !! j) as [cj|] eqn:Hcj; [|done]. simpl in Hnj.
  destruct (c_meta cj) as [m|] eqn:Hm; [|done]. simpl in Hnj.
  exists ms, j, cj, m. rewrite excluded_id by done. by simplify_eq.
Qed.

Lemma names_unique_shrink h h' :
  (∀ key ms, rooms h' !! key = Some ms →
     ∃ ms0, rooms h !! key = Some ms0 ∧ ∀ x, x ∈ ms → x ∈ ms0) →
  (∀ x n, display_name h' x = Some n → display_name h x = Some n) →
  names_unique h → names_unique h'.
Proof.
  intros Hrooms Hnames Hu key ms i j ni nj Hms Hi Hj Hij Hni Hnj.
  destruct (Hrooms key ms Hms) as (ms0 & Hms0 & Hsub).
  apply (Hu key ms0 i j); auto.
Qed.

Lemma names_unique_accept h serverSocket clientId :
  names_unique h → names_unique (accept h serverSocket clientId).
Proof.
  apply names_unique_shrink.
  - intros key ms Hms. by exists ms.
  - intros x n. unfold display_name, accept. simpl.
    destruct (decide (x = clientId)) as [->|Hne].
    + by rewrite lookup_insert_eq.
    + by rewrite lookup_insert_ne.
Qed.

Lemma names_unique_leaveRoom h clientId :
  names_unique h → names_unique (leaveRoom h clientId).1.
Proof.
  apply names_unique_shrink.
  - intros key ms. unfold leaveRoom.
    destruct (clients h !! clientId) as [c|]; [|by exists ms].
    destruct (joined_room c) as [[a r]|]; [|by exists ms].
    destruct (rooms h !! roomKey a r) as [ms0|] eqn:Hms0; [|by exists ms].
    destruct (set_size (set_delete clientId ms0) =? 0)%Z; simpl.
    + rewrite delete_insert_eq. intros [_ Hms]%lookup_delete_Some. by exists ms.
    + destruct (decide (key = roomKey a r)) as [->|Hk].
      * rewrite lookup_insert_eq. intros [= <-]. exists ms0. split; [done|].
        by intros x [? _]%elem_of_set_delete.
      * rewrite lookup_insert_ne by done. by exists ms.
  - intros x n. unfold display_name.
    assert (clients (leaveRoom h clientId).1 !! x = None
            ∨ clients (leaveRoom h clientId).1 !! x = clients h !! x) as [-> | ->];
      [|done|done].
    unfold leaveRoom. destruct (clients h !! clientId) as [c|] eqn:Hc; [|by right].
    assert (∀ m : gmap string client,
              m = clients h → delete clientId m !! x = None
                              ∨ delete clientId m !! x = clients h !! x) as Hdel.
    { intros m ->. destruct (decide (x = clientId)) as [->|];
        [left; apply lookup_delete_eq | right; by apply lookup_delete_ne]. }
    destruct (joined_room c) as [[a r]|]; [|by apply Hdel].
    destruct (rooms h !! roomKey a r) as [ms0|]; [|by apply Hdel].
    destruct (set_size (set_delete clientId ms0) =? 0)%Z; by apply Hdel.
Qed.

Lemma names_unique_after_join h i c app room nextMeta :
  wf h → names_unique h → clients h !! i = Some c →
  truthy (c_app c) && truthy (c_room c) = false →
  m_name nextMeta ≠ "" →
  toLowerCase (m_name nextMeta) ∉ roomUsedNames h (roomKey app room) (Some i) →
  names_unique (hub_after_join h c app room nextMeta).
Proof.
  intros Hwf Hu Hc Hnot Hne Hfree.
  destruct (wf_unjoined h i c Hwf Hc Hnot) as (_ & _ & _ & _ & Hout).
  destruct (wf_client h Hwf i c Hc) as (Hid & Hi & _).
  set (key := roomKey app room) in *.
  set (h' := hub_after_join h c app room nextMeta).
  assert (display_name h' i = Some (m_name nextMeta)) as Hdi.
  { unfold display_name, h', hub_after_join. simpl. rewrite Hid.
    by rewrite lookup_insert_eq. }
  assert (∀ x, x ≠ i → display_name h' x = display_name h x) as Hdx.
  { intros x Hx. unfold display_name, h', hub_after_join. simpl. rewrite Hid.
    by rewrite lookup_insert_ne. }
  assert (∀ key' ms x, rooms h' !! key' = Some ms → x ∈ ms →
            (x = i ∧ key' = key) ∨ (x ≠ i ∧ x ∈ members_of h key')) as Hmem.
  { intros key' ms x. unfold h', hub_after_join. simpl. rewrite Hid. fold key.
    fold (members_of h key).
    destruct (decide (key' = key)) as [->|Hk].
    - rewrite lookup_insert_eq. intros [= <-] [->|Hx]%elem_of_set_add; [by left|].
      right. split; [|done]. intros ->. by destruct (Hout key).
    - rewrite lookup_insert_ne by done. intros Hms Hx. right.
      assert (x ∈ members_of h key') as Hx'
        by (apply elem_of_members_of; by exists ms).
      split; [|done]. intros ->. by destruct (Hout key'). }
  intros key' ms a b na nb Hms Ha Hb Hab Hna Hnb.
  destruct (Hmem _ _ _ Hms Ha) as [[Eai Ek]|[Hai Ha']],
           (Hmem _ _ _ Hms Hb) as [[Ebi Ek']|[Hbi Hb']].
  - congruence.
  - rewrite Eai, Hdi in Hna. rewrite Hdx in Hnb by done. rewrite Ek in Hb'.
    injection Hna as <-. by apply (fresh_name_differs h key i b).
  - rewrite Ebi, Hdi in Hnb. rewrite Hdx in Hna by done. rewrite Ek' in Ha'.
    injection Hnb as <-. intros Heq. symmetry in Heq. revert Heq.
    by apply (fresh_name_differs h key i a).
  - rewrite Hdx in Hna, Hnb by done.
    apply elem_of_members_of in Ha' as (ms0 & Hms0 & Ha').
    apply elem_of_members_of in Hb' as (ms1 & Hms1 & Hb').
    assert (ms1 = ms0) as -> by congruence.
    by apply (Hu key' ms0 a b).
Qed.

Lemma names_unique_after_set_meta h i c next :
  wf h → names_unique h → clients h !! i = Some c →
  truthy (c_app c) && truthy (c_room c) = true →
  (Some (m_name next) = m_name <$> c_meta c
   ∨ (m_name next ≠ ""
      ∧ toLowerCase (m_name next)
        ∉ roomUsedNames h
            (roomKey (template (c_app c)) (template (c_room c))) (Some i))) →
  names_unique (with_clients h (<[c_id c := set_meta c (Some next)]> (clients h))).
Proof.
  intros Hwf Hu Hc Hj Hnext.
  destruct (wf_client h Hwf i c Hc) as (Hid & Hi & _).
  destruct (wf_joined h _ c Hwf Hc Hj) as (a0 & r0 & m & Ha0 & Hr0 & Hm & _ & Hin).
  rewrite Hid. set (h' := with_clients _ _).
  assert (display_name h' i = Some (m_name next)) as Hdi.
  { unfold display_name, h'. simpl. by rewrite lookup_insert_eq. }
  assert (∀ x, x ≠ i → display_name h' x = display_name h x) as Hdx.
  { intros x Hx. unfold display_name, h'. simpl. by rewrite lookup_insert_ne. }
  destruct Hnext as [Hsame|[Hne Hfree]].
  - apply (names_unique_shrink h); [by eexists| |done].
    intros x n. destruct (decide (x = i)) as [->|Hx]; [|by rewrite Hdx].
    rewrite Hdi. intros [= <-]. unfold display_name. rewrite Hc. simpl. done.
  - rewrite Ha0, Hr0 in Hfree. simpl in Hfree.
    assert (∀ key ms, rooms h !! key = Some ms → i ∈ ms → key = roomKey a0 r0)
      as Hkey.
    { intros key ms Hms Hi'.
      destruct (wf_member h Hwf key ms i Hms Hi') as (c' & a & r & ? & ? & ? & <-).
      congruence. }
    intros key ms a b na nb Hms Ha Hb Hab Hna Hnb.
    change (rooms h') with (rooms h) in Hms.
    assert (∀ x, x ∈ ms → x ∈ members_of h key) as Hmem.
    { intros x Hx. apply elem_of_members_of. by exists ms. }
    destruct (decide (a = i)) as [Eai|Hai], (decide (b = i)) as [Ebi|Hbi].
    + congruence.
    + rewrite Eai in Ha. rewrite Eai, Hdi in Hna. rewrite Hdx in Hnb by done.
      injection Hna as <-. pose proof (Hmem b Hb) as Hb'.
      rewrite (Hkey _ _ Hms Ha) in Hb'.
      by apply (fresh_name_differs h (roomKey a0 r0) i b).
    + rewrite Ebi in Hb. rewrite Ebi, Hdi in Hnb. rewrite Hdx in Hna by done.
      injection Hnb as <-. pose proof (Hmem a Ha) as Ha'.
      rewrite (Hkey _ _ Hms Hb) in Ha'.
      intros Heq. symmetry in Heq. revert Heq.
      by apply (fresh_name_differs h (roomKey a0 r0) i a).
    + rewrite Hdx in Hna, Hnb by done. by apply (Hu key ms a b).
Qed.

Lemma uniqueName_free h o baseName key i :
  i ≠ "" →
  (set_size (set_delete i (members_of h key)) < 9999)%Z →
  toLowerCase (uniqueName h o baseName key (Some i))
  ∉ roomUsedNames h key (Some i).
Proof.
  intros Hi Hlen. apply pick_name_free.
  pose proof (size_roomUsedNames h key i Hi). unfold set_size in Hlen. lia.
Qed.

Lemma names_unique_handleMessage h o ws parsed :
  (maxRoomSize h ≤ 9999)%Z → wf h → names_unique h →
  names_unique (handleMessage h o ws parsed).1.
Proof.
  intros HN Hwf Hu.
  destruct (handleMessage_cases h o ws parsed)
    as [->|[(i & c & next & Hc & Hj & -> & Hname)
           |(i & c & app & room & msg & Hc & Hj & _ & Hsz & ->)]]; [done| |];
    destruct (wf_client h Hwf i c Hc) as (Hid & Hi & _).
  - destruct (wf_joined h _ c Hwf Hc Hj) as (a & r & m & Ha & Hr & Hm & _ & Hin).
    apply (names_unique_after_set_meta h i); try done.
    destruct Hname as [->|[baseName ->]]; [left; by rewrite Hm|right].
    split; [apply uniqueName_nonempty|].
    rewrite Hid, Ha, Hr. simpl. apply uniqueName_free; [done|].
    assert (¬ i ≠ i) as Hii by (by intros ?).
    pose proof (length_filter_lt (λ y, y ≠ i) _ i Hin Hii) as Hlt.
    destruct (wf_members_of h (roomKey a r) Hwf) as [_ Hsz].
    unfold set_delete, set_size in *. lia.
  - apply (names_unique_after_join h i); try done.
    + apply uniqueName_nonempty.
    + simpl. rewrite Hid. apply uniqueName_free; [done|].
      pose proof (set_size_set_delete i (members_of h (roomKey app room))).
      unfold set_size in *. lia.
Qed.

(** C2, as the code has it: in a hub whose maximum room size is at most
    9999, every hub of a run keeps, within each room, the display names
    of any two distinct members different once lower-cased; joins,
    metadata patches and teardowns all preserve it. (A larger room can
    exhaust the 9998 sequential suffixes, and the timestamp fallback of
    the allocator then returns a name without checking it.) *)
Theorem names_unique_bounded env h :
  (maxRoomSize (new_hub env) ≤ 9999)%Z → reachable env h → names_unique h.
Proof.
  intros HN. induction 1 as [|h e Hr IH Hfresh].
  - intros key ms i j ni nj. simpl. by rewrite lookup_empty.
  - rewrite <- (reachable_maxRoomSize _ _ Hr) in HN.
    pose proof (reachable_wf _ _ Hr) as Hwf.
    destruct e as [s i|ws parsed o|i]; simpl.
    + by apply names_unique_accept.
    + by apply names_unique_handleMessage.
    + by apply names_unique_leaveRoom.
Qed.

Lemma names_unique_bounded_witness :
  names_unique hub_pair
  ∧ members_of hub_pair (roomKey "demo" "r1") = ["C"; "D"]
  ∧ display_name hub_pair "C" = Some "Player"
  ∧ display_name hub_pair "D" = Some "Player100".
Proof.
  split; [|repeat split; reflexivity].
  apply (names_unique_bounded None hub_pair).
  - by vm_compute.
  - apply reachable_hub_pair.
Defined.

(** ** A room of 10000 can hold two members of one name *)

Lemma crowd_id_nonempty k : String.eqb (crowd_id k) "" = false.
Proof. reflexivity. Qed.

Lemma crowd_id_inj k k' : crowd_id k = crowd_id k' → k = k'.
Proof. unfold crowd_id. intros H%(inj (String.app _)). by apply (inj pretty) in H. Qed.

Lemma join_as_request nm : join_request (join_as nm) "a" "r".
Proof. repeat split; reflexivity. Qed.

Lemma enrol_accepted env h o k nm :
  reachable env h →
  wsToClientId h !! k = None →
  (∀ ws, wsToClientId h !! ws ≠ Some (crowd_id k)) →
  (set_size (members_of h crowd_key) < maxRoomSize h)%Z →
  let h1 := accept h k (crowd_id k) in
  reachable env (enrol h o k nm)
  ∧ enrol h o k nm =
      hub_after_join h1 (applicant k) "a" "r"
        (joining_meta h1 o (applicant k) "a" "r" (join_as nm)).
Proof.
  intros Hr Hsock Hid Hsize h1.
  assert (fresh h (Accepted k (crowd_id k))) as Hfresh.
  { split; [done|]. split; [|done]. intros Heq.
    pose proof (crowd_id_nonempty k) as Hne. by rewrite Heq in Hne. }
  split.
  - unfold enrol. apply reachable_step; [|exact I]. by apply reachable_step.
  - change (enrol h o k nm) with (handleMessage h1 o k (Some (join_as nm))).1.
    unfold handleMessage.
    assert (wsToClientId h1 !! k = Some (crowd_id k)) as ->
      by (unfold h1, accept; simpl; apply lookup_insert_eq).
    rewrite crowd_id_nonempty.
    assert (clients h1 !! crowd_id k = Some (applicant k)) as ->
      by (unfold h1, accept; simpl; apply lookup_insert_eq).
    simpl truthy. simpl andb. cbv iota.
    change (join_as nm) with (VObj [("type", VStr "join"); ("app", VStr "a");
      ("room", VStr "r"); ("meta", VObj [("name", VStr nm)])]). cbv iota.
    fold (join_as nm).
    by rewrite (handleFirstJoin_accepts h1 o (applicant k) (join_as nm) "a" "r"
                  (join_as_request nm) Hsize).
Qed.

Lemma display_name_after_join h c app room nextMeta :
  display_name (hub_after_join h c app room nextMeta) (c_id c)
  = Some (m_name nextMeta)
  ∧ ∀ x, x ≠ c_id c →
      display_name (hub_after_join h c app room nextMeta) x = display_name h x.
Proof.
  unfold display_name, hub_after_join. simpl. split.
  - by rewrite lookup_insert_eq.
  - intros x Hx. by rewrite lookup_insert_ne.
Qed.

Lemma accept_fresh_view h k i :
  clients h !! i = None →
  members_of (accept h k i) = members_of h
  ∧ (∀ x, display_name (accept h k i) x = display_name h x)
  ∧ maxRoomSize (accept h k i) = maxRoomSize h.
Proof.
  intros Hnew. split; [done|]. split; [|done].
  intros x. unfold display_name, accept. simpl.
  destruct (decide (x = i)) as [->|Hx].
  - by rewrite lookup_insert_eq, Hnew.
  - by rewrite lookup_insert_ne.
Qed.

Lemma nat_9999 : Z.of_nat 9999 = 9999%Z.
Proof. reflexivity. Qed.

Lemma collapse_whitespace_visible in_run s :
  all_chars visible s = true → collapse_whitespace in_run s = s.
Proof.
  revert in_run. induction s as [|c s IH]; intros in_run; [done|].
  simpl. unfold visible at 1. intros [Hc Hs]%andb_prop.
  apply negb_true_iff in Hc. rewrite Hc. by rewrite IH.
Qed.

Lemma trimStart_visible s : all_chars visible s = true → trimStart s = s.
Proof.
  destruct s as [|c s]; [done|]. simpl. unfold visible at 1.
  intros [Hc _]%andb_prop. apply negb_true_iff in Hc. by rewrite Hc.
Qed.

Lemma trimEnd_visible s : all_chars visible s = true → trimEnd s = s.
Proof.
  induction s as [|c s IH]; [done|]. simpl. unfold visible at 1.
  intros [Hc Hs]%andb_prop. apply negb_true_iff in Hc.
  rewrite IH, Hc by done. by destruct s.
Qed.

Lemma slice0_short n s : (String.length s ≤ n)%nat → slice0 n s = s.
Proof.
  revert n. induction s as [|c s IH]; intros [|n]; simpl; try done; [lia|].
  intros Hn. rewrite IH; [done|lia].
Qed.

Lemma normalizeDisplayName_visible s :
  s ≠ "" → all_chars visible s = true → (String.length s ≤ 24)%nat →
  normalizeDisplayName (VStr s) = s.
Proof.
  intros Hne Hv Hlen. unfold normalizeDisplayName, trim. simpl String_.
  rewrite collapse_whitespace_visible, trimStart_visible, trimEnd_visible,
    slice0_short by done.
  apply String.eqb_neq in Hne. by rewrite Hne.
Qed.

Lemma visible_digit x : visible (pretty_N_char x) = true.
Proof. unfold pretty_N_char. by repeat case_match. Qed.

Lemma visible_pretty_N_go x s :
  all_chars visible s = true → all_chars visible (pretty_N_go x s) = true.
Proof.
  revert s. induction (N.lt_wf_0 x) as [x _ IH]; intros s Hs.
  destruct (decide (x = 0)%N) as [->|]; [by rewrite pretty_N_go_0|].
  rewrite pretty_N_go_step by lia. apply IH; [apply N.div_lt; lia|].
  simpl. by rewrite visible_digit, Hs.
Qed.

Lemma length_pretty_N_go d x s :
  (x < 10 ^ d)%N →
  (String.length (pretty_N_go x s) ≤ String.length s + N.to_nat d)%nat.
Proof.
  revert x s. induction d as [|d IH] using N.peano_ind; intros x s Hx.
  - assert (x = 0%N) as -> by (simpl in Hx; lia). rewrite pretty_N_go_0. lia.
  - destruct (decide (x = 0)%N) as [->|]; [rewrite pretty_N_go_0; lia|].
    rewrite pretty_N_go_step by lia. rewrite N.pow_succ_r' in Hx.
    etrans; [apply IH; apply N.Div0.div_lt_upper_bound; lia|]. simpl. lia.
Qed.

Lemma pretty_nat_plain k :
  (1 ≤ k ≤ 9999)%nat →
  all_chars visible (pretty (Z.of_nat k)) = true
  ∧ (String.length (pretty (Z.of_nat k)) ≤ 4)%nat.
Proof.
  intros Hk. pose proof nat_9999 as H9.
  destruct (Z.of_nat k) as [|p|p] eqn:Hz; [lia| |lia].
  change (pretty (Z.pos p)) with (pretty_N_go (N.pos p) "").
  split; [by apply visible_pretty_N_go|].
  apply (length_pretty_N_go 4). lia.
Qed.

Lemma crowd_name_normal k :
  (1 ≤ k ≤ 9999)%nat → normalizeDisplayName (VStr (crowd_name k)) = crowd_name k.
Proof.
  intros Hk. unfold crowd_name. destruct (k =? 1)%nat; [reflexivity|].
  destruct (pretty_nat_plain k Hk) as [Hv Hlen].
  unfold sequential_candidate. apply normalizeDisplayName_visible.
  - by rewrite append_cons.
  - rewrite append_cons. simpl. exact Hv.
  - change (S (String.length (pretty (Z.of_nat k))) ≤ 24)%nat. lia.
Qed.

Lemma crowd_name_inj k k' :
  (1 ≤ k)%nat → (1 ≤ k')%nat →
  toLowerCase (crowd_name k) = toLowerCase (crowd_name k') → k = k'.
Proof.
  intros Hk Hk'. unfold crowd_name.
  destruct (Nat.eqb_spec k 1) as [->|], (Nat.eqb_spec k' 1) as [->|]; try done.
  - intros H. symmetry in H. by apply sequential_candidate_not_base in H.
  - intros H. by apply sequential_candidate_not_base in H.
  - intros H%sequential_candidate_inj. lia.
Qed.

Lemma crowded_used n h x i :
  crowded n h →
  x ∈ roomUsedNames h crowd_key (Some i) →
  ∃ k, (1 ≤ k ≤ n)%nat ∧ x = toLowerCase (crowd_name k).
Proof.
  intros Hcr (ms & j & c & m & Hms & Hj & _ & Hc & Hm & _ & <-)%elem_of_roomUsedNames.
  apply members_of_Some in Hms. rewrite (crowded_members n h Hcr) in Hms.
  subst ms. apply list_elem_of_fmap in Hj as (k & -> & Hk%elem_of_seq).
  exists k. split; [lia|].
  pose proof (crowded_names n h Hcr k) as Hn. unfold display_name in Hn.
  rewrite Hc in Hn. simpl in Hn. rewrite Hm in Hn. simpl in Hn.
  assert (m_name m = crowd_name k) as -> by (apply Some_inj, Hn; lia). done.
Qed.

Lemma crowded_uses n h k i :
  crowded n h → (1 ≤ k ≤ n)%nat → i ≠ "" → i ≠ crowd_id k →
  toLowerCase (crowd_name k) ∈ roomUsedNames h crowd_key (Some i).
Proof.
  intros Hcr Hk Hi Hne. apply elem_of_roomUsedNames.
  pose proof (crowded_names n h Hcr k Hk) as Hn. unfold display_name in Hn.
  destruct (clients h !! crowd_id k) as [c|] eqn:Hc; [|done]. simpl in Hn.
  destruct (c_meta c) as [m|] eqn:Hm; [|done]. simpl in Hn.
  assert (crowd_id k ∈ members_of h crowd_key) as (ms & Hms & Hin)%elem_of_members_of.
  { rewrite (crowded_members n h Hcr). apply list_elem_of_fmap.
    exists k. split; [done|]. apply elem_of_seq. lia. }
  exists ms, (crowd_id k), c, m. rewrite excluded_id by done.
  injection Hn as Hn. rewrite Hn. repeat split; try done.
  unfold crowd_name. destruct (k =? 1)%nat; [done|].
  intros H. by apply (f_equal toLowerCase), toLowerCase_append_nonempty in H.
Qed.

Lemma roomUsedNames_accept h k i key ignoreId :
  clients h !! i = None →
  roomUsedNames (accept h k i) key ignoreId = roomUsedNames h key ignoreId.
Proof.
  intros Hnew. unfold roomUsedNames. change (rooms (accept h k i)) with (rooms h).
  destruct (rooms h !! key) as [ms|]; [|done].
  generalize (∅ : gset string). induction ms as [|j ms IH]; intros acc; [done|].
  simpl. rewrite IH. f_equal. unfold used_step, accept. simpl.
  destruct (decide (j = i)) as [->|Hj].
  - by rewrite lookup_insert_eq, Hnew.
  - by rewrite lookup_insert_ne.
Qed.

Lemma crowded_newcomer env n h :
  reachable env h → crowded n h → (n ≤ 9999)%nat →
  wsToClientId h !! S n = None
  ∧ (∀ ws, wsToClientId h !! ws ≠ Some (crowd_id (S n)))
  ∧ clients h !! crowd_id (S n) = None
  ∧ (set_size (members_of h crowd_key) < maxRoomSize h)%Z
  ∧ crowd_id (S n) ∉ members_of h crowd_key.
Proof.
  intros Hr Hcr Hn. pose proof nat_9999.
  assert (∀ ws, wsToClientId h !! ws ≠ Some (crowd_id (S n))) as Hid.
  { intros ws Hws. apply (crowded_sockets n h Hcr) in Hws as [Hle Heq].
    apply crowd_id_inj in Heq. lia. }
  split; [|split; [done|split; [|split]]].
  - destruct (wsToClientId h !! S n) as [i|] eqn:Hws; [|done].
    apply (crowded_sockets n h Hcr) in Hws as [Hle _]. lia.
  - destruct (clients h !! crowd_id (S n)) as [c|] eqn:Hc; [|done].
    destruct (wf_client h (reachable_wf _ _ Hr) _ _ Hc) as (_ & _ & Hws & _).
    by destruct (Hid (c_ws c)).
  - rewrite (crowded_members n h Hcr), (crowded_max n h Hcr).
    unfold set_size. rewrite length_fmap, length_seq. lia.
  - rewrite (crowded_members n h Hcr).
    intros (k & Heq%crowd_id_inj & Hk%elem_of_seq)%list_elem_of_fmap. lia.
Qed.

Lemma join_as_name nm :
  m_name (normalizeMeta (prop (join_as nm) "meta")) = normalizeDisplayName (VStr nm).
Proof. reflexivity. Qed.

Lemma enrol_view env n h o nm :
  reachable env h → crowded n h → (n ≤ 9999)%nat →
  let h' := enrol h o (S n) nm in
  let given :=
    pick_name (roomUsedNames h crowd_key (Some (crowd_id (S n))))
      (normalizeDisplayName (VStr (normalizeDisplayName (VStr nm)))) o in
  reachable env h'
  ∧ rooms h' !! crowd_key = Some (crowd_id <$> seq 1 (S n))
  ∧ display_name h' (crowd_id (S n)) = Some given
  ∧ (∀ k, (1 ≤ k ≤ n)%nat → display_name h' (crowd_id k) = Some (crowd_name k))
  ∧ wsToClientId h' = <[S n := crowd_id (S n)]> (wsToClientId h)
  ∧ maxRoomSize h' = 10000%Z.
Proof.
  intros Hr Hcr Hn.
  destruct (crowded_newcomer env n h Hr Hcr Hn) as (Hsock & Hid & Hnew & Hsize & Hout).
  destruct (enrol_accepted env h o (S n) nm Hr Hsock Hid Hsize) as [Hr' Heq].
  cbv zeta. rewrite Heq. split; [by rewrite <- Heq|].
  set (h1 := accept h (S n) (crowd_id (S n))).
  set (meta := joining_meta h1 o (applicant (S n)) "a" "r" (join_as nm)).
  destruct (display_name_after_join h1 (applicant (S n)) "a" "r" meta) as [Hd Hdx].
  change (c_id (applicant (S n))) with (crowd_id (S n)) in Hd, Hdx.
  destruct (accept_fresh_view h (S n) (crowd_id (S n)) Hnew) as (Hms & Hdn & Hmax).
  split; [|split; [|split; [|split]]].
  - unfold hub_after_join. simpl c_id. fold crowd_key.
    change (rooms (with_clients ?a ?b)) with (rooms a).
    change (rooms (with_rooms ?a ?b)) with b.
    rewrite lookup_insert_eq. f_equal.
    change (default [] (rooms h1 !! crowd_key)) with (members_of h crowd_key).
    unfold set_add. rewrite bool_decide_eq_false_2 by done.
    rewrite (crowded_members n h Hcr). by rewrite seq_S, fmap_app.
  - rewrite Hd. unfold meta, joining_meta, uniqueName. cbn [m_name].
    rewrite join_as_name. fold crowd_key. unfold h1.
    rewrite roomUsedNames_accept by exact Hnew. reflexivity.
  - intros k Hk. rewrite Hdx.
    + fold h1 in Hdn. rewrite Hdn. by apply (crowded_names n h Hcr).
    + intros Heq'%crowd_id_inj. lia.
  - done.
  - change (maxRoomSize (hub_after_join h1 _ _ _ _)) with (maxRoomSize h).
    apply (crowded_max n h Hcr).
Qed.

Lemma crowd_step n h :
  reachable crowded_env h → crowded n h → (n < 9999)%nat →
  reachable crowded_env (enrol h quiet (S n) (crowd_name (S n)))
  ∧ crowded (S n) (enrol h quiet (S n) (crowd_name (S n))).
Proof.
  intros Hr Hcr Hn.
  destruct (enrol_view crowded_env n h quiet (crowd_name (S n)) Hr Hcr)
    as (Hr' & Hrooms & Hnew & Hold & Hws & Hmax); [lia|].
  split; [done|].
  assert (pick_name (roomUsedNames h crowd_key (Some (crowd_id (S n))))
            (normalizeDisplayName (VStr (normalizeDisplayName
               (VStr (crowd_name (S n)))))) quiet = crowd_name (S n)) as Hpick.
  { rewrite !crowd_name_normal by lia. unfold pick_name.
    rewrite bool_decide_eq_false_2; [done|].
    intros (k & Hk & Heq%crowd_name_inj)%(crowded_used n h _ _ Hcr); lia. }
  rewrite Hpick in Hnew. split.
  - unfold members_of. by rewrite Hrooms.
  - intros k Hk. destruct (decide (k = S n)) as [->|]; [done|].
    apply Hold. lia.
  - intros ws i. rewrite Hws. destruct (decide (ws = S n)) as [->|Hne].
    + rewrite lookup_insert_eq. intros [= <-]. split; [lia|done].
    + rewrite lookup_insert_ne by done.
      intros [? ?]%(crowded_sockets n h Hcr). split; [lia|done].
  - done.
Qed.

Lemma crowd_reachable n :
  (n ≤ 9999)%nat → reachable crowded_env (crowd n) ∧ crowded n (crowd n).
Proof.
  induction n as [|n IH]; intros Hn.
  - split; [apply reachable_new|]. split.
    + reflexivity.
    + intros k Hk. lia.
    + intros ws i Hws.
      change (wsToClientId (crowd 0)) with (∅ : gmap nat string) in Hws.
      by rewrite lookup_empty in Hws.
    + reflexivity.
  - destruct IH as [Hr Hcr]; [lia|]. simpl crowd. apply crowd_step; [done|done|lia].
Qed.

Lemma random_attempts_exhausted used base rnd i count :
  (∀ j, toLowerCase (base +:+ pretty (randomSuffix (rnd j))) ∈ used) →
  random_attempts used base rnd i count = None.
Proof.
  intros Hall. revert i. induction count as [|count IH]; intros i; [done|].
  simpl. by rewrite bool_decide_eq_true_2.
Qed.

Lemma sequential_attempts_exhausted used base n count :
  (∀ m, (n ≤ m < n + Z.of_nat count)%Z → toLowerCase (base +:+ pretty m) ∈ used) →
  sequential_attempts used base n count = None.
Proof.
  revert n. induction count as [|count IH]; intros n Hall; [done|].
  simpl. rewrite bool_decide_eq_true_2 by (apply Hall; lia).
  apply IH. intros m Hm. apply Hall. lia.
Qed.

Lemma crowd_name_sequential m :
  (2 ≤ m)%Z → crowd_name (Z.to_nat m) = sequential_candidate "P" m.
Proof.
  intros Hm. unfold crowd_name.
  destruct (Nat.eqb_spec (Z.to_nat m) 1); [lia|]. by rewrite Z2Nat.id by lia.
Qed.

Lemma late_pick h :
  crowded 9999 h →
  pick_name (roomUsedNames h crowd_key (Some (crowd_id (S 9999))))
    (normalizeDisplayName (VStr (normalizeDisplayName (VStr "P")))) late = "P2".
Proof.
  intros Hcr. pose proof nat_9999 as H9.
  change (normalizeDisplayName (VStr (normalizeDisplayName (VStr "P")))) with "P".
  assert (∀ k, (1 ≤ k ≤ 9999)%nat →
            toLowerCase (crowd_name k)
            ∈ roomUsedNames h crowd_key (Some (crowd_id (S 9999)))) as Hused.
  { intros k Hk. apply (crowded_uses 9999 h); [exact Hcr|exact Hk| |].
    - intros Heq. pose proof (crowd_id_nonempty (S 9999)) as Hne.
      by rewrite Heq in Hne.
    - intros Heq%crowd_id_inj. lia. }
  unfold pick_name. rewrite bool_decide_eq_true_2 by (apply (Hused 1%nat); lia).
  rewrite random_attempts_exhausted.
  - rewrite sequential_attempts_exhausted; [done|].
    intros m Hm. rewrite attempts_9998 in Hm.
    change ("P" +:+ pretty m) with (sequential_candidate "P" m).
    rewrite <- crowd_name_sequential by lia. apply Hused. lia.
  - intros j. change (randomSuffix (random late j)) with 100%Z.
    apply (Hused 100%nat). lia.
Qed.

Lemma overcrowded_view :
  reachable crowded_env overcrowded
  ∧ rooms overcrowded !! crowd_key = Some (crowd_id <$> seq 1 (S 9999))
  ∧ display_name overcrowded (crowd_id (S 9999)) = Some "P2"
  ∧ display_name overcrowded (crowd_id 2) = Some "P2".
Proof.
  destruct (crowd_reachable 9999) as [Hr Hcr]; [apply Nat.le_refl|].
  unfold overcrowded.
  destruct (enrol_view crowded_env 9999 (crowd 9999) late "P" Hr Hcr)
    as (Hr' & Hrooms & Hnew & Hold & _); [apply Nat.le_refl|].
  rewrite (late_pick _ Hcr) in Hnew.
  split; [exact Hr'|]. split; [exact Hrooms|]. split; [exact Hnew|].
  apply (Hold 2%nat). pose proof nat_9999. lia.
Qed.

(** Against C2 as stated: with a maximum room size of 10000, after 9999
    clients joined one room as [P], [P2], ..., [P9999], a further client
    asking for [P] at a moment when every random draw gives 100 and the
    clock reads 2 modulo 100000 is named [P2], like the second member. *)
Lemma names_unique_counterexample :
  reachable crowded_env overcrowded ∧ ¬ names_unique overcrowded.
Proof.
  destruct overcrowded_view as (Hr & Hrooms & Hlast & Hsecond).
  split; [exact Hr|]. intros Hu.
  pose proof nat_9999 as H9.
  assert (∀ k, (1 ≤ k ≤ S 9999)%nat → crowd_id k ∈ crowd_id <$> seq 1 (S 9999))
    as Hin.
  { intros k Hk. apply list_elem_of_fmap. exists k. split; [reflexivity|].
    apply elem_of_seq. lia. }
  apply (Hu crowd_key _ (crowd_id 2) (crowd_id (S 9999)) "P2" "P2" Hrooms).
  - apply Hin. lia.
  - apply Hin. lia.
  - intros Heq%crowd_id_inj. lia.
  - exact Hsecond.
  - exact Hlast.
  - reflexivity.
Qed.

(** ** Sockets and clients *)

Lemma leaveRoom_other_client h i j :
  j ≠ i → clients (leaveRoom h i).1 !! j = clients h !! j.
Proof.
  intros Hne. unfold leaveRoom. destruct (clients h !! i) as [c|]; [|done].
  destruct (joined_room c) as [[a r]|]; simpl.
  - destruct (rooms h !! roomKey a r) as [ms|]; simpl.
    + destruct (_ =? _)%Z; simpl; by rewrite lookup_delete_ne.
    + by rewrite lookup_delete_ne.
  - by rewrite lookup_delete_ne.
Qed.

Lemma leaveRoom_wsToClientId h i :
  wsToClientId (leaveRoom h i).1 = wsToClientId h.
Proof.
  unfold leaveRoom. destruct (clients h !! i) as [c|]; [|done].
  destruct (joined_room c) as [[a r]|]; [|done].
  destruct (rooms h !! roomKey a r) as [ms|]; [|done].
  by destruct (set_size (set_delete i ms) =? 0)%Z.
Qed.

Lemma handleMessage_wsToClientId h o ws parsed :
  wsToClientId (handleMessage h o ws parsed).1 = wsToClientId h.
Proof.
  by destruct (handleMessage_cases h o ws parsed)
    as [->|[(? & ? & ? & _ & _ & -> & _)
           |(? & ? & ? & ? & ? & _ & _ & _ & _ & ->)]].
Qed.

Lemma reachable_sockets_ok env h : reachable env h → sockets_ok h.
Proof.
  induction 1 as [|h e Hr IH Hfresh].
  - intros ws ws' i. simpl. by rewrite lookup_empty.
  - destruct e as [s i|ws parsed o|i]; simpl.
    + destruct Hfresh as (Hs & _ & Hid). intros ws ws' j. unfold accept. simpl.
      destruct (decide (ws = s)) as [->|Hws], (decide (ws' = s)) as [->|Hws'];
        rewrite ?lookup_insert_eq, ?lookup_insert_ne by done; try done.
      * intros [= <-] Hj. by destruct (Hid ws').
      * intros Hj [= <-]. by destruct (Hid ws).
      * apply IH.
    + unfold sockets_ok. rewrite handleMessage_wsToClientId. apply IH.
    + unfold sockets_ok. rewrite leaveRoom_wsToClientId. apply IH.
Qed.

Lemma client_of_socket env h ws i c :
  reachable env h → wsToClientId h !! ws = Some i → clients h !! i = Some c →
  c_ws c = ws ∧ c_id c = i.
Proof.
  intros Hr Hws Hc.
  destruct (wf_client h (reachable_wf _ _ Hr) i c Hc) as (Hid & _ & Hback & _).
  split; [|done]. by apply (reachable_sockets_ok _ _ Hr _ _ i).
Qed.

(** X1: Two client entries never share a socket, and the socket of an entry
    is the one its messages arrive on. *)
Theorem sockets_identify_clients env h i j c d :
  reachable env h → clients h !! i = Some c → clients h !! j = Some d →
  (c_ws c = c_ws d → i = j)
  ∧ (∀ ws, wsToClientId h !! ws = Some i ↔ ws = c_ws c).
Proof.
  intros Hr Hc Hd. pose proof (reachable_wf _ _ Hr) as Hwf.
  destruct (wf_client h Hwf i c Hc) as (_ & _ & Hci & _).
  destruct (wf_client h Hwf j d Hd) as (_ & _ & Hdj & _).
  split.
  - intros Heq. rewrite Heq in Hci. congruence.
  - intros ws. split; [|by intros ->].
    intros Hws. by apply (reachable_sockets_ok _ _ Hr _ _ i).
Qed.

(** ** What a message of a joined client leaves alone *)

Lemma type_is_exclusive msg t t' :
  type_is msg t = true → t ≠ t' → type_is msg t' = false.
Proof.
  unfold type_is. destruct (prop msg "type"); try done.
  intros ->%String.eqb_eq Hne. by apply String.eqb_neq.
Qed.

(** X2: A message of a joined client never changes the rooms, the socket
    table or the entry of another client; the only change it can make is
    to the sender's own metadata, by a [set-meta] with an object for a
    patch. *)
Theorem handleJoinedClientMessage_frame h o c msg :
  let h' := (handleJoinedClientMessage h o c msg).1 in
  rooms h' = rooms h
  ∧ wsToClientId h' = wsToClientId h
  ∧ (∀ j, j ≠ c_id c → clients h' !! j = clients h !! j)
  ∧ (h' = h
     ∨ (type_is msg "set-meta" = true ∧ is_object (prop msg "patch") = true
        ∧ ∃ next, clients h' !! c_id c = Some (set_meta c (Some next)))).
Proof.
  simpl. destruct (handleJoinedClientMessage_state h o c msg) as [->|[Ht ->]].
  { split; [done|]. split; [done|]. split; [done|]. by left. }
  destruct (is_object (prop msg "patch")) eqn:Hobj.
  - destruct (patch_throws (prop msg "patch")) eqn:Hthrows.
    { rewrite handleSetMeta_throws by done.
      split; [done|]. split; [done|]. split; [done|]. by left. }
    rewrite handleSetMeta_stores by done. simpl.
    split; [done|]. split; [done|]. split.
    + intros j Hj. by rewrite lookup_insert_ne.
    + right. split; [done|]. split; [done|]. eexists.
      by rewrite lookup_insert_eq.
  - rewrite handleSetMeta_invalid by done.
    split; [done|]. split; [done|]. split; [done|]. by left.
Qed.

(** ** Fan-out to the other members of a room *)

Lemma notify_others h members i payload (P : string → emission → Prop) :
  (∀ p, p ∈ members → p ≠ i →
     ∃ peer, clients h !! p = Some peer ∧ P p (wsJson h (c_ws peer) payload)) →
  Forall2 P (set_delete i members) (notify h members (Some i) payload).
Proof.
  unfold notify, set_delete.
  induction members as [|p members IH]; intros Hall; [constructor|].
  rewrite filter_cons. simpl.
  assert (Forall2 P (filter (λ y, y ≠ i) members)
            (flat_map
               (λ peerId,
                  if bool_decide (Some peerId = Some i) then []
                  else match clients h !! peerId with
                       | Some peer => [wsJson h (c_ws peer) payload]
                       | None => []
                       end) members)) as Hrest.
  { apply IH. intros q Hq. apply Hall. apply elem_of_cons. by right. }
  destruct (decide (p = i)) as [->|Hp].
  - rewrite decide_False by (by intros ?).
    by rewrite bool_decide_eq_true_2.
  - rewrite decide_True by done.
    rewrite bool_decide_eq_false_2 by congruence.
    destruct (Hall p) as (peer & -> & HP); [apply elem_of_cons; by left|done|].
    by constructor.
Qed.

Lemma Forall2_right {A B} (Q : B → Prop) (l : list A) (k : list B) :
  Forall2 (λ _ e, Q e) l k → Forall Q k.
Proof. induction 1; by constructor. Qed.

Lemma others_are_clients env h key i p :
  reachable env h → p ∈ members_of h key → p ≠ i →
  ∃ peer, clients h !! p = Some peer ∧ c_id peer = p.
Proof.
  intros Hr (ms & Hms & Hp)%elem_of_members_of _.
  pose proof (reachable_wf _ _ Hr) as Hwf.
  destruct (wf_member h Hwf _ _ _ Hms Hp) as (peer & _ & _ & Hpeer & _).
  exists peer. split; [done|]. by destruct (wf_client h Hwf _ _ Hpeer).
Qed.

Lemma other_socket env h i c p peer :
  reachable env h → clients h !! i = Some c → clients h !! p = Some peer →
  p ≠ i → c_ws peer ≠ c_ws c.
Proof.
  intros Hr Hc Hp Hne Heq. pose proof (reachable_wf _ _ Hr) as Hwf.
  destruct (wf_client h Hwf i c Hc) as (_ & _ & Hci & _).
  destruct (wf_client h Hwf p peer Hp) as (_ & _ & Hpi & _).
  rewrite Heq in Hpi. congruence.
Qed.

(** X3: A [broadcast] of a joined client reaches every other member of its
    room once, in the order of the member set, with [from] set to the
    sender's id; the sender's own socket gets nothing and the hub is the
    same afterwards. *)
Theorem broadcast_reaches_room env h o i c a r msg :
  reachable env h → clients h !! i = Some c →
  c_app c = Some a → c_room c = Some r →
  type_is msg "broadcast" = true →
  let result := handleJoinedClientMessage h o c msg in
  let payload := Broadcast i (nullish (prop msg "payload") VNull) in
  result.1 = h
  ∧ Forall2 (delivered h payload)
      (set_delete i (members_of h (roomKey a r))) result.2
  ∧ Forall (λ e, dest e ≠ c_ws c) result.2.
Proof.
  intros Hr Hc Ha Hrm Ht. cbv zeta.
  pose proof (reachable_wf _ _ Hr) as Hwf.
  destruct (wf_client h Hwf i c Hc) as (Hid & _).
  unfold handleJoinedClientMessage.
  rewrite (type_is_exclusive msg "broadcast" "signal"),
    (type_is_exclusive msg "broadcast" "direct"), Ht by done.
  rewrite Ha, Hrm, Hid. simpl template. unfold members_of.
  destruct (rooms h !! roomKey a r) as [ms|] eqn:Hms; simpl.
  2: { split; [done|]. split; constructor. }
  split; [done|].
  assert (∀ p, p ∈ ms → p ≠ i →
            ∃ peer, clients h !! p = Some peer ∧ c_id peer = p) as Hpeers.
  { intros p Hp. apply (others_are_clients env h (roomKey a r)); [done|].
    apply elem_of_members_of. by exists ms. }
  split.
  - apply notify_others. intros p Hp Hne.
    destruct (Hpeers p Hp Hne) as (peer & Hpeer & _).
    exists peer. split; [done|]. by exists peer.
  - apply (Forall2_right _ (set_delete i ms)).
    apply notify_others. intros p Hp Hne.
    destruct (Hpeers p Hp Hne) as (peer & Hpeer & _).
    exists peer. split; [done|]. simpl.
    by apply (other_socket env h i c p peer).
Qed.

Lemma members_of_hub_after_leave h i key :
  members_of (hub_after_leave h i key) key = set_delete i (members_of h key).
Proof.
  unfold hub_after_leave, members_of at 1. simpl. case_decide as Hnil.
  - by rewrite lookup_delete_eq, Hnil.
  - by rewrite lookup_insert_eq.
Qed.

Lemma rooms_hub_after_leave_other h i key key' :
  key' ≠ key → rooms (hub_after_leave h i key) !! key' = rooms h !! key'.
Proof.
  intros Hk. unfold hub_after_leave. simpl.
  case_decide; [by rewrite lookup_delete_ne | by rewrite lookup_insert_ne].
Qed.

(** X4: The teardown of a joined client tells every remaining member of its
    room, once each and nobody else, that the client left; afterwards
    the client is in neither registry, its room holds the other members
    in their order, and every other room and client is as before. *)
Theorem leaveRoom_notifies_room env h i c a r :
  reachable env h → clients h !! i = Some c →
  c_app c = Some a → c_room c = Some r →
  let result := leaveRoom h i in
  let key := roomKey a r in
  Forall2 (delivered h (PeerLeft i)) (set_delete i (members_of h key)) result.2
  ∧ Forall (λ e, dest e ≠ c_ws c) result.2
  ∧ clients result.1 !! i = None
  ∧ members_of result.1 key = set_delete i (members_of h key)
  ∧ (∀ key', i ∉ members_of result.1 key')
  ∧ (∀ key', key' ≠ key → rooms result.1 !! key' = rooms h !! key')
  ∧ (∀ j, j ≠ i → clients result.1 !! j = clients h !! j).
Proof.
  intros Hr Hc Ha Hrm. cbv zeta.
  pose proof (reachable_wf _ _ Hr) as Hwf.
  destruct (wf_client h Hwf i c Hc) as (_ & _ & _ & Hst).
  rewrite Ha, Hrm in Hst.
  destruct Hst as (Hva%validChannelName_nonempty & Hvr%validChannelName_nonempty
                   & _ & ms & Hms & Hin).
  pose proof (joined_room_Some c a r Ha Hrm Hva Hvr) as Hj.
  rewrite (leaveRoom_joined _ _ _ _ _ _ Hc Hj Hms). cbn [fst snd].
  rewrite (members_of_Some h _ _ Hms).
  set (h1 := with_rooms h _).
  assert (∀ p, p ∈ set_delete i ms →
            ∃ peer, clients h !! p = Some peer ∧ c_ws peer ≠ c_ws c) as Hpeers.
  { intros p [Hp Hne]%elem_of_set_delete.
    destruct (others_are_clients env h (roomKey a r) i p) as (peer & Hpeer & _);
      [done| |done|].
    { apply elem_of_members_of. by exists ms. }
    exists peer. split; [done|]. by apply (other_socket env h i c p peer). }
  split; [|split; [|split; [|split; [|split; [|split]]]]].
  - apply notify_each. intros p Hp. destruct (Hpeers p Hp) as (peer & Hpeer & _).
    exists peer. split; [done|]. by exists peer.
  - apply (Forall2_right _ (set_delete i ms)). apply notify_each.
    intros p Hp. destruct (Hpeers p Hp) as (peer & Hpeer & Hws).
    by exists peer.
  - unfold hub_after_leave. simpl. apply lookup_delete_eq.
  - rewrite members_of_hub_after_leave. by rewrite (members_of_Some h _ _ Hms).
  - intros key' Hin'. destruct (decide (key' = roomKey a r)) as [->|Hk].
    + rewrite members_of_hub_after_leave in Hin'.
      by apply elem_of_set_delete in Hin' as [_ ?].
    + apply elem_of_members_of in Hin' as (ms' & Hms' & Hin').
      rewrite rooms_hub_after_leave_other in Hms' by done.
      destruct (wf_member h Hwf _ _ _ Hms' Hin') as (c' & a' & r' & ? & ? & ? & ?).
      apply Hk. congruence.
  - intros key' Hk. by apply rooms_hub_after_leave_other.
  - intros j Hne. unfold hub_after_leave. simpl. by apply lookup_delete_ne.
Qed.




(** ** Error replies *)

Lemma notify_no_error h members skip payload :
  (∀ reason detail, payload ≠ Error reason detail) →
  Forall (λ e, ¬ is_error e) (notify h members skip payload).
Proof.
  intros Hp. unfold notify. induction members as [|p members IH]; simpl;
    [constructor|].
  apply Forall_app. split; [|done].
  destruct (bool_decide _); [constructor|].
  destruct (clients h !! p); constructor; [|constructor].
  intros (reason & detail & Hb). by apply (Hp reason detail).
Qed.

Lemma handleJoinedClientMessage_replies h o c msg :
  (∃ reason detail,
     handleJoinedClientMessage h o c msg =
     (h, [wsJson h (c_ws c) (Error reason detail)]))
  ∨ Forall (λ e, ¬ is_error e) (handleJoinedClientMessage h o c msg).2.
Proof.
  assert (∀ h' ws m, (∀ reason detail, m ≠ Error reason detail) →
            Forall (λ e, ¬ is_error e) [wsJson h' ws m]) as Hone.
  { intros h' ws m Hm. constructor; [|constructor].
    intros (reason & detail & Hb). by apply (Hm reason detail). }
  unfold handleJoinedClientMessage.
  assert (∀ fwd, (∀ reason detail, fwd ≠ Error reason detail) →
            (∃ reason detail,
               relay_to_target h c msg fwd =
               (h, [wsJson h (c_ws c) (Error reason detail)]))
            ∨ Forall (λ e, ¬ is_error e) (relay_to_target h c msg fwd).2)
    as Hrelay.
  { intros fwd Hfwd. unfold relay_to_target.
    destruct (prop msg "to") as [| | | |t| |]; try (left; by eexists _, _).
    destruct (clients h !! t) as [target|]; [|left; by eexists _, _].
    destruct (_ || _); [left; by eexists _, _|]. right. by apply Hone. }
  destruct (type_is msg "signal"); [by apply Hrelay|].
  destruct (type_is msg "direct"); [by apply Hrelay|].
  destruct (type_is msg "broadcast").
  { right. destruct (rooms h !! _); simpl; [|constructor].
    by apply notify_no_error. }
  destruct (type_is msg "set-meta").
  { destruct (is_object (prop msg "patch")) eqn:Hobj;
      [|left; rewrite handleSetMeta_invalid by done; by eexists _, _].
    right. destruct (patch_throws (prop msg "patch")) eqn:Hthrows;
      [rewrite handleSetMeta_throws by done; constructor|].
    rewrite handleSetMeta_stores by done. cbn [snd]. unfold relayPeerMeta.
    destruct (joined_room _) as [[a r]|]; [|constructor].
    destruct (rooms _ !! _); [|constructor].
    apply Forall_app. split; [by apply Hone|by apply notify_no_error]. }
  destruct (type_is msg "ping"); [right; by apply Hone|].
  left. by eexists _, _.
Qed.

Lemma handleFirstJoin_replies h o c msg :
  (∃ reason detail,
     handleFirstJoin h o c msg = (h, [wsJson h (c_ws c) (Error reason detail)]))
  ∨ Forall (λ e, ¬ is_error e) (handleFirstJoin h o c msg).2.
Proof.
  unfold handleFirstJoin.
  destruct (type_is msg "join"); simpl; [|left; by eexists _, _].
  destruct (prop msg "app") as [| | | |app| |]; try (left; by eexists _, _).
  destruct (prop msg "room") as [| | | |room| |]; try (left; by eexists _, _).
  destruct (_ || _); [left; by eexists _, _|].
  destruct (_ <=? _)%Z; [left; by eexists _, _|].
  right. destruct (normalizeMeta_throws _); [constructor|]. simpl. constructor.
  - by intros (reason & detail & Hb).
  - by apply notify_no_error.
Qed.

(** X6: Whatever arrives on a socket, when the handling sends an error
    reply it sends nothing else, the reply goes to that socket, and the
    hub is left as it was. *)
Theorem error_replies_to_sender env h o ws parsed e :
  reachable env h →
  e ∈ (handleMessage h o ws parsed).2 → is_error e →
  handleMessage h o ws parsed = (h, [e]) ∧ dest e = ws.
Proof.
  intros Hr. unfold handleMessage.
  destruct (wsToClientId h !! ws) as [i|] eqn:Hws;
    [|by intros ?%elem_of_nil].
  destruct (String.eqb i ""); [by intros ?%elem_of_nil|].
  destruct (clients h !! i) as [c|] eqn:Hc; [|by intros ?%elem_of_nil].
  destruct (client_of_socket env h ws i c Hr Hws Hc) as [Hsock _].
  destruct parsed as [msg|];
    [|by intros ->%list_elem_of_singleton _].
  assert (msg = VNull
          ∨ ∀ x y : hub * list emission,
              match msg with VNull => x | _ => y end = y) as [->| ->]
    by (destruct msg; auto); [by intros ?%elem_of_nil|].
  assert (∀ result : hub * list emission,
            (∃ reason detail,
               result = (h, [wsJson h (c_ws c) (Error reason detail)]))
            ∨ Forall (λ e, ¬ is_error e) result.2 →
            e ∈ result.2 → is_error e → result = (h, [e]) ∧ dest e = ws)
    as Hcases.
  { intros result [(reason & detail & ->)|Hnone] Hin Herr.
    - apply list_elem_of_singleton in Hin as ->. by rewrite <- Hsock.
    - rewrite Forall_forall in Hnone. by destruct (Hnone e Hin). }
  destruct (truthy (c_app c) && truthy (c_room c)); apply Hcases.
  - apply handleJoinedClientMessage_replies.
  - apply handleFirstJoin_replies.
Qed.

(** ** Sockets without a client *)

(** X7: Once a client is torn down, whatever still arrives on its socket is
    dropped: nothing is sent and nothing changes. *)
Theorem messages_after_teardown_dropped h o ws i parsed :
  wsToClientId h !! ws = Some i →
  handleMessage (leaveRoom h i).1 o ws parsed = ((leaveRoom h i).1, []).
Proof.
  intros Hws. unfold handleMessage.
  rewrite leaveRoom_wsToClientId, Hws, leaveRoom_forgets.
  by destruct (String.eqb i "").
Qed.

(** ** Joining and leaving *)

Lemma set_delete_absent i l : i ∉ l → set_delete i l = l.
Proof.
  intros Hi. unfold set_delete. induction l as [|x l IH]; [done|].
  rewrite filter_cons. apply not_elem_of_cons in Hi as [Hne Hi].
  rewrite decide_True by done. by rewrite IH.
Qed.

Lemma set_delete_set_add i l : i ∉ l → set_delete i (set_add i l) = l.
Proof.
  intros Hi. unfold set_add. rewrite bool_decide_eq_false_2 by done.
  unfold set_delete. rewrite filter_app, filter_cons, filter_nil.
  rewrite decide_False by (by intros ?). rewrite app_nil_r.
  by apply set_delete_absent.
Qed.

(** X8: A client that joins a room and is then torn down leaves the room
    registry exactly as it was before the join: the room is gone again
    if the client had created it, and holds its former members in their
    former order otherwise. *)
Theorem join_then_leave_restores_rooms env h o i c msg app room :
  reachable env h → clients h !! i = Some c →
  truthy (c_app c) && truthy (c_room c) = false →
  join_request msg app room →
  (set_size (members_of h (roomKey app room)) < maxRoomSize h)%Z →
  rooms (leaveRoom (handleFirstJoin h o c msg).1 i).1 = rooms h.
Proof.
  intros Hr Hc Hnot Hreq Hsize.
  pose proof (reachable_wf _ _ Hr) as Hwf.
  destruct (wf_unjoined h _ _ Hwf Hc Hnot) as (_ & _ & _ & Hjr & Hout).
  destruct (wf_client h Hwf _ _ Hc) as (Hid & _).
  pose proof Hreq as (_ & _ & _ & Hva%validChannelName_nonempty
                      & Hvr%validChannelName_nonempty).
  destruct (normalizeMeta_throws (prop msg "meta")) eqn:Hmeta.
  { rewrite (handleFirstJoin_throws _ _ _ _ _ _ Hreq Hsize Hmeta). cbn [fst].
    by rewrite (leaveRoom_unjoined _ _ _ Hc Hjr). }
  rewrite (handleFirstJoin_accepts _ _ _ _ _ _ Hreq Hsize Hmeta). cbn [fst].
  set (meta := joining_meta h o c app room msg).
  set (h' := hub_after_join h c app room meta).
  set (key := roomKey app room) in *.
  assert (clients h' !! i =
          Some {| c_id := i; c_ws := c_ws c; c_app := Some app;
                  c_room := Some room; c_meta := Some meta |}) as Hc'.
  { unfold h', hub_after_join. simpl. rewrite Hid. by rewrite lookup_insert_eq. }
  assert (rooms h' = <[key := set_add i (members_of h key)]> (rooms h)) as Hrooms.
  { unfold h', hub_after_join. simpl. by rewrite Hid. }
  rewrite (leaveRoom_joined h' i _ app room (set_add i (members_of h key)) Hc').
  2: { by apply joined_room_Some. }
  2: { fold key. rewrite Hrooms. by rewrite lookup_insert_eq. }
  unfold hub_after_leave. cbn [fst]. fold key.
  change (rooms (with_clients ?x ?y)) with (rooms x).
  change (rooms (with_rooms ?x ?y)) with y.
  assert (members_of h' key = set_add i (members_of h key)) as ->.
  { unfold members_of at 1. rewrite Hrooms. by rewrite lookup_insert_eq. }
  rewrite set_delete_set_add by apply Hout. rewrite Hrooms.
  case_decide as Hnil.
  - rewrite delete_insert_eq. apply delete_id.
    destruct (rooms h !! key) as [ms|] eqn:Hms; [|done].
    destruct (wf_room h Hwf key ms Hms) as (Hne & _).
    by rewrite (members_of_Some _ _ _ Hms) in Hnil.
  - rewrite insert_insert_eq. apply insert_id.
    unfold members_of in *. by destruct (rooms h !! key).
Qed.



(** ** Refusals of the join handshake *)

(** X10: Before a client has joined, anything that is not a [join] message is
    answered [join-required-first], and a [join] whose [app] or [room] is
    not a valid channel name is answered [invalid-app-or-room], whatever
    the state of the target room; the hub is left as it was. *)
Theorem handleFirstJoin_refusals h o c msg :
  (type_is msg "join" = false →
     handleFirstJoin h o c msg =
     (h, [wsJson h (c_ws c) (Error "join-required-first" NoDetail)]))
  ∧ (type_is msg "join" = true →
     validChannelName (prop msg "app") && validChannelName (prop msg "room")
       = false →
     handleFirstJoin h o c msg =
     (h, [wsJson h (c_ws c) (Error "invalid-app-or-room" NoDetail)])).
Proof.
  unfold handleFirstJoin. split.
  - by intros ->.
  - intros -> Hv. simpl negb. cbv iota.
    destruct (prop msg "app") as [| | | |app| |]; try done.
    destruct (prop msg "room") as [| | | |room| |]; try done.
    simpl in Hv. apply andb_false_iff in Hv as [Hv|Hv]; rewrite Hv; [done|].
    by rewrite orb_true_r.
Qed.

(** ** Membership and the clients' own rooms agree *)

(** X11: In every hub of a run, the members of a room are exactly the clients
    whose own app and room name that room; so a client is a member of at
    most one room, and no member set lists an id twice. *)
Theorem membership_matches_clients env h :
  reachable env h →
  (∀ key i,
     i ∈ members_of h key ↔
     ∃ c a r, clients h !! i = Some c ∧ c_app c = Some a ∧ c_room c = Some r
              ∧ roomKey a r = key)
  ∧ (∀ key key' i, i ∈ members_of h key → i ∈ members_of h key' → key = key')
  ∧ (∀ key, NoDup (members_of h key)).
Proof.
  intros Hr. pose proof (reachable_wf _ _ Hr) as Hwf.
  assert (∀ key i,
            i ∈ members_of h key →
            ∃ c a r, clients h !! i = Some c ∧ c_app c = Some a
                     ∧ c_room c = Some r ∧ roomKey a r = key) as Hmem.
  { intros key i (ms & Hms & Hi)%elem_of_members_of.
    apply (wf_member h Hwf key ms i Hms Hi). }
  split; [|split].
  - intros key i. split; [apply Hmem|].
    intros (c & a & r & Hc & Ha & Hrm & <-).
    destruct (wf_client h Hwf i c Hc) as (_ & _ & _ & Hst).
    rewrite Ha, Hrm in Hst. destruct Hst as (_ & _ & _ & ms & Hms & Hi).
    apply elem_of_members_of. by exists ms.
  - intros key key' i (c & a & r & Hc & Ha & Hrm & <-)%Hmem
      (c' & a' & r' & Hc' & Ha' & Hrm' & <-)%Hmem. congruence.
  - intros key. by apply wf_members_of.
Qed.

(** ** A joined client stays where it is *)

(** X12: Once a client has joined, no event of a run changes its app or its
    room, and its entry disappears only by its own teardown: there is no
    switching of rooms. *)
Theorem joined_client_stays env h e i c a r :
  reachable env h → fresh h e →
  clients h !! i = Some c → c_app c = Some a → c_room c = Some r →
  (e = Closed i ∧ clients (handle h e).1 !! i = None)
  ∨ (e ≠ Closed i
     ∧ ∃ c', clients (handle h e).1 !! i = Some c'
             ∧ c_id c' = c_id c ∧ c_ws c' = c_ws c
             ∧ c_app c' = Some a ∧ c_room c' = Some r).
Proof.
  intros Hr Hfresh Hc Ha Hrm. pose proof (reachable_wf _ _ Hr) as Hwf.
  destruct e as [s k|ws parsed o|k]; simpl.
  - right. split; [done|]. exists c. split; [|done].
    destruct Hfresh as (_ & _ & Hid). unfold accept. simpl.
    rewrite lookup_insert_ne; [done|]. intros ->.
    destruct (wf_client h Hwf _ _ Hc) as (_ & _ & Hws & _).
    by destruct (Hid (c_ws c)).
  - right. split; [done|].
    destruct (handleMessage_cases h o ws parsed)
      as [->|[(j & d & next & Hd & Hj & -> & _)
             |(j & d & app & room & msg & Hd & Hj & _ & _ & ->)]].
    + by exists c.
    + destruct (wf_client h Hwf _ _ Hd) as (Hid & _). simpl. rewrite Hid.
      destruct (decide (j = i)) as [->|Hne].
      * assert (d = c) as -> by congruence. rewrite lookup_insert_eq.
        by eexists.
      * rewrite lookup_insert_ne by done. by exists c.
    + destruct (wf_client h Hwf _ _ Hd) as (Hid & _).
      unfold hub_after_join. simpl. rewrite Hid.
      destruct (decide (j = i)) as [->|Hne].
      * assert (d = c) as -> by congruence.
        destruct (wf_unjoined h _ _ Hwf Hc Hj) as (Hnone & _). congruence.
      * rewrite lookup_insert_ne by done. by exists c.
  - destruct (decide (k = i)) as [->|Hne].
    + left. split; [done|]. apply leaveRoom_forgets.
    + right. split; [congruence|]. exists c.
      by rewrite leaveRoom_other_client.
Qed.

(** ** Stored metadata is always well formed *)

Lemma length_slice0 n s : (String.length (slice0 n s) ≤ n)%nat.
Proof.
  revert s. induction n as [|n IH]; intros [|c s]; simpl; try lia.
  specialize (IH s). lia.
Qed.

Lemma length_normalizeDisplayName v :
  (1 ≤ String.length (normalizeDisplayName v) ≤ 24)%nat.
Proof.
  pose proof (normalizeDisplayName_nonempty v) as Hne.
  split; [destruct (normalizeDisplayName v); [done|simpl; lia]|].
  unfold normalizeDisplayName. destruct (String.eqb _ ""); [simpl; lia|].
  apply length_slice0.
Qed.

Lemma length_pretty_suffix z :
  (-100000 < z < 100000)%Z → (String.length (pretty z) ≤ 6)%nat.
Proof.
  intros Hz. destruct z as [|p|p]; [simpl; lia| |].
  - change (pretty (Z.pos p)) with (pretty_N_go (N.pos p) "").
    pose proof (length_pretty_N_go 5 (N.pos p) "") as H. simpl in H.
    assert (N.pos p < 10 ^ 5)%N by (change (10 ^ 5)%N with 100000%N; lia).
    specialize (H ltac:(done)). lia.
  - change (pretty (Z.neg p)) with ("-" +:+ pretty_N_go (N.pos p) "").
    rewrite append_cons. simpl.
    pose proof (length_pretty_N_go 5 (N.pos p) "") as H. simpl in H.
    assert (N.pos p < 10 ^ 5)%N by (change (10 ^ 5)%N with 100000%N; lia).
    specialize (H ltac:(done)).
    change (String.length ("" +:+ pretty_N_go (N.pos p) ""))
      with (String.length (pretty_N_go (N.pos p) "")). lia.
Qed.

Lemma length_pick_name used base o :
  (String.length (pick_name used base o) ≤ String.length base + 6)%nat.
Proof.
  unfold pick_name. case_bool_decide; [|lia].
  assert (∀ z, (-100000 < z < 100000)%Z →
            String.length (base +:+ pretty z) ≤ String.length base + 6)%nat
    as Hlen.
  { intros z Hz. rewrite append_length. pose proof (length_pretty_suffix z Hz). lia. }
  destruct (random_attempts _ _ _ _ _) as [c|] eqn:Hr.
  { apply random_attempts_Some in Hr as (j & _ & -> & _). apply Hlen.
    pose proof (randomSuffix_range (random o j)). lia. }
  destruct (sequential_attempts _ _ _ _) as [c|] eqn:Hs.
  { apply sequential_attempts_Some in Hs as (m & Hm & -> & _). apply Hlen.
    rewrite attempts_9998 in Hm. lia. }
  apply Hlen. pose proof (Z.rem_bound_abs (now o) 100000). lia.
Qed.

Lemma uniqueName_ok h o baseName key ignoreId :
  uniqueName h o baseName key ignoreId ≠ ""
  ∧ (String.length (uniqueName h o baseName key ignoreId) ≤ 30)%nat.
Proof.
  split; [apply uniqueName_nonempty|]. unfold uniqueName.
  pose proof (length_pick_name (roomUsedNames h key ignoreId)
                (normalizeDisplayName (VStr baseName)) o).
  pose proof (length_normalizeDisplayName (VStr baseName)). lia.
Qed.

Lemma handleSetMeta_next h o c patch :
  (handleSetMeta h o c patch).1 = h
  ∨ ∃ next,
      (handleSetMeta h o c patch).1 =
        with_clients h (<[c_id c := set_meta c (Some next)]> (clients h))
      ∧ (m_name next = from_option m_name "Player" (c_meta c)
         ∨ ∃ baseName key, m_name next = uniqueName h o baseName key (Some (c_id c)))
      ∧ (m_status next = from_option m_status "lobby" (c_meta c)
         ∨ ∃ v, m_status next = normalizePresenceStatus v).
Proof.
  destruct (is_object patch) eqn:Hobj;
    [|left; by rewrite handleSetMeta_invalid].
  destruct (patch_throws patch) eqn:Ht; [left; by rewrite handleSetMeta_throws|].
  right. rewrite handleSetMeta_stores by done.
  exists (patched_meta h o c patch). split; [done|]. simpl. split.
  - destruct (hasOwnProperty patch "name"); [right; by eexists _, _|by left].
  - destruct (hasOwnProperty patch "status"); [right; by eexists|by left].
Qed.

Lemma metas_ok_update h c next :
  metas_ok h → presence_ok next →
  metas_ok (with_clients h (<[c_id c := set_meta c (Some next)]> (clients h))).
Proof.
  intros Hok Hnext j d m. simpl. destruct (decide (j = c_id c)) as [->|Hne].
  - rewrite lookup_insert_eq. by intros [= <-] [= <-].
  - rewrite lookup_insert_ne by done. apply Hok.
Qed.

Lemma metas_ok_handleSetMeta h o c patch :
  metas_ok h → (∀ m, c_meta c = Some m → presence_ok m) →
  metas_ok (handleSetMeta h o c patch).1.
Proof.
  intros Hok Hc.
  destruct (handleSetMeta_next h o c patch) as [->|(next & -> & Hn & Hs)];
    [done|].
  apply metas_ok_update; [done|].
  assert (presence_ok (Presence (from_option m_name "Player" (c_meta c))
                         (from_option m_status "lobby" (c_meta c)))) as Hprior.
  { destruct (c_meta c) as [m|]; simpl.
    - by destruct m, (Hc _ eq_refl).
    - repeat split; [by right|done|simpl; lia]. }
  destruct Hprior as (Hps & Hpn & Hpl). simpl in *. repeat split.
  - destruct Hs as [->|[v ->]]; [done|apply normalizePresenceStatus_cases].
  - destruct Hn as [->|(b & k & ->)]; [done|apply uniqueName_ok].
  - destruct Hn as [->|(b & k & ->)]; [done|apply uniqueName_ok].
Qed.

Lemma metas_ok_handleMessage h o ws parsed :
  metas_ok h → metas_ok (handleMessage h o ws parsed).1.
Proof.
  intros Hok. unfold handleMessage.
  destruct (wsToClientId h !! ws) as [i|]; [|done].
  destruct (String.eqb i ""); [done|].
  destruct (clients h !! i) as [c|] eqn:Hc; [|done].
  destruct parsed as [msg|]; [|done].
  assert (msg = VNull
          ∨ ∀ x y : hub * list emission,
              match msg with VNull => x | _ => y end = y) as [->| ->]
    by (destruct msg; auto); [done|].
  destruct (truthy (c_app c) && truthy (c_room c)).
  - destruct (handleJoinedClientMessage_state h o c msg) as [->|[_ ->]]; [done|].
    apply metas_ok_handleSetMeta; [done|]. intros m. by apply (Hok i).
  - destruct (handleFirstJoin_cases h o c msg)
      as [->|(app & room & _ & _ & ->)]; [done|].
    intros j d m. unfold hub_after_join. simpl.
    destruct (decide (j = c_id c)) as [->|Hne].
    + rewrite lookup_insert_eq. intros [= <-] [= <-]. repeat split; simpl.
      * apply normalizePresenceStatus_cases.
      * apply uniqueName_ok.
      * apply uniqueName_ok.
    + rewrite lookup_insert_ne by done. apply Hok.
Qed.

Lemma reachable_metas_ok env h : reachable env h → metas_ok h.
Proof.
  induction 1 as [|h e Hr IH Hfresh].
  - intros i c m. simpl. by rewrite lookup_empty.
  - destruct e as [s k|ws parsed o|k]; simpl.
    + intros j d m. unfold accept. simpl.
      destruct (decide (j = k)) as [->|Hne].
      * rewrite lookup_insert_eq. by intros [= <-].
      * rewrite lookup_insert_ne by done. apply IH.
    + by apply metas_ok_handleMessage.
    + intros j d m. destruct (decide (j = k)) as [->|Hne].
      * by rewrite leaveRoom_forgets.
      * rewrite leaveRoom_other_client by done. apply IH.
Qed.

(** X13: In every hub of a run, a client has metadata exactly when it has
    joined, and stored metadata always has the status ["playing"] or
    ["lobby"] and a non-empty display name of at most 30 characters. *)
Theorem stored_metadata_well_formed env h i c :
  reachable env h → clients h !! i = Some c →
  (is_Some (c_meta c) ↔ is_Some (c_app c))
  ∧ (is_Some (c_app c) ↔ is_Some (c_room c))
  ∧ (∀ m, c_meta c = Some m → presence_ok m).
Proof.
  intros Hr Hc. pose proof (reachable_wf _ _ Hr) as Hwf.
  destruct (wf_client h Hwf i c Hc) as (_ & _ & _ & Hst).
  split; [|split].
  - destruct (c_app c), (c_room c); try done.
    + destruct Hst as (_ & _ & Hm & _). by split.
    + rewrite Hst. split; by intros [? ?].
  - destruct (c_app c), (c_room c); try done; split; by intros [? ?] || eauto.
  - intros m. by apply (reachable_metas_ok env h Hr i).
Qed.

(** ** The shape of a normalized display name *)

Lemma single_spaced_collapse b s :
  single_spaced b (collapse_whitespace b s) = true.
Proof.
  revert b. induction s as [|c s IH]; intros b; [done|]. simpl.
  destruct (is_whitespace c) eqn:Hc.
  - destruct b; [apply IH|]. simpl. by rewrite IH.
  - simpl. rewrite Hc. apply IH.
Qed.

Lemma single_spaced_trimStart b s :
  single_spaced b s = true → single_spaced true (trimStart s) = true.
Proof.
  revert b. induction s as [|c s IH]; intros b; [done|]. simpl.
  destruct (is_whitespace c) eqn:Hc.
  - intros [_ Hs]%andb_prop. by apply (IH true).
  - simpl. by rewrite Hc.
Qed.

Lemma trimEnd_visible_head c s :
  is_whitespace c = false → trimEnd (String c s) = String c (trimEnd s).
Proof. intros Hc. simpl. rewrite Hc. by destruct (trimEnd s). Qed.

Lemma single_spaced_trimEnd b s :
  single_spaced b s = true → single_spaced b (trimEnd s) = true.
Proof.
  revert b. induction s as [|c s IH]; intros b; [done|].
  destruct (is_whitespace c) eqn:Hc.
  - simpl. rewrite Hc. intros [Hb Hs]%andb_prop.
    specialize (IH true Hs). destruct (trimEnd s) as [|c' s'] eqn:Ht; [done|].
    simpl. rewrite Hc, Hb. exact IH.
  - rewrite trimEnd_visible_head by done. simpl. rewrite Hc. apply IH.
Qed.

Lemma single_spaced_slice0 n b s :
  single_spaced b s = true → single_spaced b (slice0 n s) = true.
Proof.
  revert b s. induction n as [|n IH]; intros b [|c s]; try done. simpl.
  destruct (is_whitespace c).
  - intros [Hb Hs]%andb_prop. rewrite Hb. by apply IH.
  - apply IH.
Qed.

Lemma single_spaced_normalizeDisplayName v :
  single_spaced true (normalizeDisplayName v) = true.
Proof.
  unfold normalizeDisplayName. destruct (String.eqb _ ""); [done|].
  apply single_spaced_slice0. unfold trim.
  apply single_spaced_trimEnd, (single_spaced_trimStart false),
    single_spaced_collapse.
Qed.

Lemma collapse_whitespace_single_spaced b b' s :
  single_spaced b s = true → (b' = true → b = true) →
  collapse_whitespace b' s = s.
Proof.
  revert b b'. induction s as [|c s IH]; intros b b'; [done|]. simpl.
  destruct (is_whitespace c).
  - intros [[Hc Hb%negb_true_iff]%andb_prop Hs]%andb_prop Himp.
    apply Ascii.eqb_eq in Hc as ->.
    destruct b'; [by rewrite Himp in Hb|]. by rewrite (IH true true).
  - intros Hs _. by rewrite (IH false false).
Qed.

Lemma trimStart_single_spaced s :
  single_spaced true s = true → trimStart s = s.
Proof.
  destruct s as [|c s]; [done|]. simpl. destruct (is_whitespace c); [|done].
  by rewrite andb_false_r.
Qed.

Lemma trimEnd_idempotent s : trimEnd (trimEnd s) = trimEnd s.
Proof.
  induction s as [|c s IH]; [done|]. simpl.
  destruct (trimEnd s) as [|c' s'] eqn:Ht.
  - destruct (is_whitespace c) eqn:Hc; [done|]. simpl. by rewrite Hc.
  - change (trimEnd (String c (String c' s')))
      with (match trimEnd (String c' s') with
            | EmptyString =>
                if is_whitespace c then EmptyString else String c EmptyString
            | r' => String c r'
            end).
    by rewrite IH.
Qed.

Lemma length_trimEnd s : (String.length (trimEnd s) ≤ String.length s)%nat.
Proof.
  induction s as [|c s IH]; [done|]. simpl.
  destruct (trimEnd s); [destruct (is_whitespace c)|]; simpl in *; lia.
Qed.

Lemma trimEnd_nonempty s :
  s ≠ "" → single_spaced true s = true → trimEnd s ≠ "".
Proof.
  destruct s as [|c s]; [done|]. intros _. simpl single_spaced.
  destruct (is_whitespace c) eqn:Hc; [by rewrite andb_false_r|].
  intros _. by rewrite trimEnd_visible_head.
Qed.

Lemma normalizeDisplayName_single_spaced s :
  s ≠ "" → single_spaced true s = true → (String.length s ≤ 24)%nat →
  normalizeDisplayName (VStr s) = trimEnd s.
Proof.
  intros Hne Hs Hlen. unfold normalizeDisplayName, trim. simpl String_.
  rewrite (collapse_whitespace_single_spaced true false) by done.
  rewrite trimStart_single_spaced by done.
  rewrite slice0_short by (pose proof (length_trimEnd s); lia).
  pose proof (trimEnd_nonempty s Hne Hs) as Ht.
  apply String.eqb_neq in Ht. by rewrite Ht.
Qed.

(** X14: A normalized display name has 1 to 24 characters, does not start
    with whitespace and holds whitespace only as single spaces. A second
    normalization, as [uniqueName] applies to the names handed to it,
    only strips the whitespace the cut at 24 characters can leave at the
    end; from then on the name is stable. *)
Theorem normalizeDisplayName_shape v :
  let name := normalizeDisplayName v in
  (1 ≤ String.length name ≤ 24)%nat
  ∧ single_spaced true name = true
  ∧ normalizeDisplayName (VStr name) = trimEnd name
  ∧ normalizeDisplayName (VStr (trimEnd name)) = trimEnd name.
Proof.
  cbv zeta. pose proof (length_normalizeDisplayName v) as Hlen.
  pose proof (single_spaced_normalizeDisplayName v) as Hs.
  pose proof (normalizeDisplayName_nonempty v) as Hne.
  split; [done|]. split; [done|]. split.
  - apply normalizeDisplayName_single_spaced; [done..|lia].
  - rewrite normalizeDisplayName_single_spaced.
    + apply trimEnd_idempotent.
    + by apply trimEnd_nonempty.
    + by apply single_spaced_trimEnd.
    + pose proof (length_trimEnd (normalizeDisplayName v)). lia.
Qed.

Example normalizeDisplayName_cut :
  normalizeDisplayName (VStr "abcdefghijklmnopqrstuvw xyz") = "abcdefghijklmnopqrstuvw "
  ∧ normalizeDisplayName (VStr "abcdefghijklmnopqrstuvw ") = "abcdefghijklmnopqrstuvw".
Proof. split; reflexivity. Qed.

(** ** The configured room size *)

(** X15: The room limit is an integer of at least 2: the configured number
    rounded down when it is finite and at least 2, and 64 when it is
    absent, not a number, infinite or below 2. *)
Theorem maxRoomSize_range h :
  (2 ≤ maxRoomSize h)%Z
  ∧ (∀ raw, env_MAX_ROOM_SIZE h = Some (Finite raw) → (2 # 1 <= raw)%Q →
       (inject_Z (maxRoomSize h) <= raw)%Q
       ∧ (raw < inject_Z (maxRoomSize h + 1))%Q)
  ∧ (∀ raw, env_MAX_ROOM_SIZE h = Some (Finite raw) → (raw < 2 # 1)%Q →
       maxRoomSize h = 64%Z)
  ∧ (env_MAX_ROOM_SIZE h = None ∨ env_MAX_ROOM_SIZE h = Some NaN
     ∨ (∃ s, env_MAX_ROOM_SIZE h = Some (Infinity s)) → maxRoomSize h = 64%Z).
Proof.
  split; [apply maxRoomSize_at_least_2|]. unfold maxRoomSize. split; [|split].
  - intros raw -> Hraw. simpl.
    assert (Qle_bool (2 # 1) raw = true) as -> by by apply Qle_bool_iff.
    split; [apply Qfloor_le|apply Qlt_floor].
  - intros raw -> Hraw. simpl.
    destruct (Qle_bool (2 # 1) raw) eqn:Hle; [|done].
    apply Qle_bool_iff in Hle. by apply Qlt_not_le in Hraw.
  - by intros [->|[->|[s ->]]].
Qed.

(** ** Renaming to one's own name *)

(** X16: In a room of unique names, a client that asks for the name it
    already has keeps it, provided the name is its own normal form (it
    is not when an allocated suffix made it longer than 24 characters):
    the client's own name does not count as taken. *)
Theorem rename_to_own_name env h o i c a r m patch :
  reachable env h → names_unique h →
  clients h !! i = Some c →
  c_app c = Some a → c_room c = Some r → c_meta c = Some m →
  hasOwnProperty patch "name" = true →
  prop patch "name" = VStr (m_name m) →
  normalizeDisplayName (VStr (m_name m)) = m_name m →
  ∃ next,
    clients (handleSetMeta h o c patch).1 !! i = Some (set_meta c (Some next))
    ∧ m_name next = m_name m.
Proof.
  intros Hr Hu Hc Ha Hrm Hm Hown Hname Hnorm.
  pose proof (reachable_wf _ _ Hr) as Hwf.
  destruct (wf_client h Hwf i c Hc) as (Hid & Hi & _ & Hst).
  rewrite Ha, Hrm in Hst. destruct Hst as (_ & _ & _ & ms & Hms & Hin).
  assert (is_object patch = true) as Hobj.
  { destruct patch; try done. }
  unfold handleSetMeta. rewrite Hobj, Hown, Hname, Ha, Hrm, Hid, Hnorm.
  simpl negb. cbv iota. simpl template.
  eexists. split; [simpl; rewrite ?Hid; apply lookup_insert_eq|]. simpl.
  unfold uniqueName. rewrite Hnorm. unfold pick_name.
  rewrite bool_decide_eq_false_2; [done|].
  assert (toLowerCase (m_name m) ≠ "") as Hlow.
  { pose proof (normalizeDisplayName_nonempty (VStr (m_name m))) as Hne.
    rewrite Hnorm in Hne. destruct (m_name m); done. }
  intros Hused.
  apply used_iff_taken in Hused; [|by intros [= ->]|done].
  destruct Hused as (ms' & j & d & mj & Hms' & Hj & Hne & Hd & Hmj & Hsame).
  assert (ms' = ms) as -> by congruence.
  apply (Hu (roomKey a r) ms i j (m_name m) (m_name mj) Hms Hin Hj).
  - intros ->. by apply Hne.
  - unfold display_name. rewrite Hc. simpl. by rewrite Hm.
  - unfold display_name. rewrite Hd. simpl. by rewrite Hmj.
  - done.
Qed.

(** ** A socket that was just accepted *)

Lemma fresh_client_unknown env h ws i :
  reachable env h → fresh h (Accepted ws i) → clients h !! i = None.
Proof.
  intros Hr (_ & _ & Hid). destruct (clients h !! i) as [c|] eqn:Hc; [|done].
  destruct (wf_client h (reachable_wf _ _ Hr) _ _ Hc) as (_ & _ & Hws & _).
  by destruct (Hid (c_ws c)).
Qed.

(** X17: A socket that was just accepted stands for a client that has not
    joined: its first message goes through the join handshake, anything
    but a [join] is answered [join-required-first], and closing it right
    away sends nothing and leaves the rooms and the clients as they were
    before it was accepted. *)
Theorem accepted_socket_starts_unjoined env h ws i o msg :
  reachable env h → fresh h (Accepted ws i) → msg ≠ VNull →
  let h' := accept h ws i in
  handleMessage h' o ws (Some msg)
  = handleFirstJoin h' o (Client i ws None None None) msg
  ∧ (type_is msg "join" = false →
     handleMessage h' o ws (Some msg)
     = (h', [wsJson h' ws (Error "join-required-first" NoDetail)]))
  ∧ leaveRoom h' i = (with_wsToClientId h (<[ws := i]> (wsToClientId h)), []).
Proof.
  intros Hr Hfresh Hmsg. cbv zeta.
  pose proof (fresh_client_unknown env h ws i Hr Hfresh) as Hnew.
  destruct Hfresh as (_ & Hne%String.eqb_neq & _).
  assert (handleMessage (accept h ws i) o ws (Some msg)
          = handleFirstJoin (accept h ws i) o (Client i ws None None None) msg)
    as Hfirst.
  { unfold handleMessage. unfold accept at 1 2. simpl wsToClientId.
    rewrite lookup_insert_eq, Hne. simpl clients. rewrite lookup_insert_eq.
    by destruct msg. }
  split; [done|]. split.
  - intros Ht. rewrite Hfirst. unfold handleFirstJoin. by rewrite Ht.
  - rewrite (leaveRoom_unjoined _ _ (Client i ws None None None)); [| |done].
    + unfold accept, with_clients, with_wsToClientId. simpl.
      rewrite delete_insert_eq, delete_id by done. done.
    + unfold accept. simpl. apply lookup_insert_eq.
Qed.

(** ** The Node server and the hub *)

Lemma wire_app ready out out' :
  wire ready (out ++ out') = wire ready out ++ wire ready out'.
Proof. apply flat_map_app. Qed.

Lemma wire_one ready h ws m :
  wire ready [wsJson h ws m] = Node.json ready ws (Node.Plain m).
Proof. unfold wire. simpl. apply app_nil_r. Qed.

Lemma each_peer_wire ready h members skip m :
  Node.each_peer ready h members skip (Node.Plain m)
  = wire ready (notify h members skip m).
Proof.
  unfold Node.each_peer, notify.
  induction members as [|p members IH]; [done|]. simpl.
  rewrite wire_app. f_equal; [|exact IH].
  destruct (bool_decide _); [done|].
  destruct (clients h !! p); [|done]. by rewrite wire_one.
Qed.






(** X19: The teardown of the Node server changes the registries as the
    teardown of the hub does and sends the same [peer-left] messages, to
    the open sockets only. *)
Theorem node_leaveRoom_agrees ready h i :
  Node.leaveRoom ready h i = ((leaveRoom h i).1, wire ready (leaveRoom h i).2).
Proof.
  unfold Node.leaveRoom, leaveRoom. destruct (clients h !! i) as [c|]; [|done].
  destruct (joined_room c) as [[a r]|]; [|done].
  destruct (rooms h !! roomKey a r) as [ms|]; [|done].
  rewrite each_peer_wire. by destruct (_ =? _)%Z.
Qed.

Lemma json_open ready ws m :
  Forall (λ p, ready (Node.p_dest p) = true) (Node.json ready ws m).
Proof.
  unfold Node.json. destruct (ready ws) eqn:H; repeat constructor. done.
Qed.

Lemma each_peer_open ready h members skip m :
  Forall (λ p, ready (Node.p_dest p) = true)
    (Node.each_peer ready h members skip m).
Proof.
  unfold Node.each_peer. induction members as [|p members IH]; [constructor|].
  simpl. apply Forall_app. split; [|done].
  destruct (bool_decide _); [constructor|].
  destruct (clients h !! p); [apply json_open|constructor].
Qed.

Lemma client_branch_open ready h o ws i c msg result :
  Node.client_branch ready h o ws i c msg = Some result →
  Forall (λ p, ready (Node.p_dest p) = true) result.2.
Proof.
  unfold Node.client_branch.
  assert (∀ fwd, Forall (λ p, ready (Node.p_dest p) = true)
                   (Node.relay_to_target ready h ws c msg fwd).2) as Hrelay.
  { intros fwd. unfold Node.relay_to_target.
    destruct (prop msg "to") as [| | | |t| |]; try apply json_open.
    destruct (clients h !! t); [|apply json_open].
    destruct (_ || _); apply json_open. }
  destruct (type_is msg "signal"); [intros [= <-]; apply Hrelay|].
  destruct (type_is msg "direct"); [intros [= <-]; apply Hrelay|].
  destruct (type_is msg "broadcast").
  { destruct (rooms h !! _); intros [= <-];
      [apply each_peer_open|constructor]. }
  destruct (type_is msg "set-meta").
  { destruct (is_object _); cbn [negb]; [|intros [= <-]; apply json_open].
    destruct (_ && _); [done|]. intros [= <-]. cbn [snd].
    unfold Node.relayPeerMeta. destruct (joined_room _) as [[a r]|];
      [|constructor].
    destruct (rooms _ !! _); [|constructor].
    apply Forall_app. split; [apply json_open|apply each_peer_open]. }
  destruct (type_is msg "ping"); intros [= <-]; apply json_open.
Qed.

Lemma join_branch_open ready h o ws i msg result :
  Node.join_branch ready h o ws i msg = Some result →
  Forall (λ p, ready (Node.p_dest p) = true) result.2.
Proof.
  unfold Node.join_branch.
  destruct (type_is msg "join"); cbn [negb]; [|intros [= <-]; apply json_open].
  destruct (prop msg "app"); try (intros [= <-]; apply json_open).
  destruct (prop msg "room"); try (intros [= <-]; apply json_open).
  destruct (_ || _); [intros [= <-]; apply json_open|].
  destruct (Node.ge_number _ _); [intros [= <-]; apply json_open|].
  destruct (normalizeMeta_throws _); [done|]. intros [= <-]. cbn [snd].
  apply Forall_app. split; [apply json_open|apply each_peer_open].
Qed.

(** X20: Whatever the listener or the teardown of the Node server sends
    goes to a socket that is open at that time. *)
Theorem node_sends_to_open_sockets ready h o ws i parsed :
  (∀ result, Node.listener ready h o ws i parsed = Some result →
     Forall (λ p, ready (Node.p_dest p) = true) result.2)
  ∧ Forall (λ p, ready (Node.p_dest p) = true) (Node.leaveRoom ready h i).2.
Proof.
  split.
  2: { unfold Node.leaveRoom. destruct (clients h !! i) as [c|]; [|constructor].
       destruct (joined_room c) as [[a r]|]; [|constructor].
       destruct (rooms h !! roomKey a r) as [ms|]; [|constructor].
       destruct (_ =? _)%Z; apply each_peer_open. }
  intros result. unfold Node.listener.
  destruct parsed as [msg|]; [|intros [= <-]; apply json_open].
  assert (msg = VNull
          ∨ ∀ x y : option (hub * list Node.packet),
              match msg with VNull => x | _ => y end = y) as [->| ->]
    by (destruct msg; auto); [done|].
  destruct (clients h !! i) as [c|].
  - apply client_branch_open.
  - apply join_branch_open.
Qed.

(** ** The limit of the Node server *)









(** ** Instances on the sample hubs *)

(** C8: a [set-meta] of a joined client whose patch is an object does
    not always store the merged metadata. In the hub where [C] and [D]
    share [demo]/[r1], [C]'s [set-meta] with the patch
    [{"name": {"toString": 1}}] makes [normalizeDisplayName] throw: the
    hub is left as it was, so [C] keeps the name [Player] where the
    allocator would have been asked for a name, and nothing is sent, no
    [meta-updated] either. *)
Theorem set_meta_name_throws :
  reachable None hub_pair
  ∧ clients hub_pair !! "C" = Some host
  ∧ type_is rename_odd "set-meta" = true
  ∧ is_object (prop rename_odd "patch") = true
  ∧ hasOwnProperty (prop rename_odd "patch") "name" = true
  ∧ normalizeDisplayName_throws (prop (prop rename_odd "patch") "name") = true
  ∧ handleMessage hub_pair quiet 3 (Some rename_odd) = (hub_pair, [])
  ∧ display_name hub_pair "C" = Some "Player".
Proof.
  split; [apply reachable_hub_pair|]. repeat split; reflexivity.
Qed.


Lemma sockets_identify_clients_witness :
  (c_ws host = c_ws partner → "C" = "D")
  ∧ (∀ ws, wsToClientId hub_pair !! ws = Some "C" ↔ ws = c_ws host).
Proof.
  apply (sockets_identify_clients None hub_pair "C" "D" host partner).
  - apply reachable_hub_pair.
  - reflexivity.
  - reflexivity.
Defined.

Lemma broadcast_reaches_room_witness :
  (handleJoinedClientMessage hub_pair quiet host shout).1 = hub_pair
  ∧ Forall2 (delivered hub_pair (Broadcast "C" (VStr "hi"))) ["D"]
      (handleJoinedClientMessage hub_pair quiet host shout).2
  ∧ Forall (λ e, dest e ≠ c_ws host)
      (handleJoinedClientMessage hub_pair quiet host shout).2.
Proof.
  apply (broadcast_reaches_room None hub_pair quiet "C" host "demo" "r1" shout).
  - apply reachable_hub_pair.
  - reflexivity.
  - reflexivity.
  - reflexivity.
  - reflexivity.
Defined.

Lemma leaveRoom_notifies_room_witness :
  Forall2 (delivered hub_pair (PeerLeft "C")) ["D"] (leaveRoom hub_pair "C").2
  ∧ members_of (leaveRoom hub_pair "C").1 "demo::r1" = ["D"].
Proof.
  destruct (leaveRoom_notifies_room None hub_pair "C" host "demo" "r1")
    as (Hsent & _ & _ & Hmembers & _).
  - apply reachable_hub_pair.
  - reflexivity.
  - reflexivity.
  - reflexivity.
  - split; [exact Hsent|exact Hmembers].
Defined.


Lemma error_replies_to_sender_witness :
  handleMessage hub_alone quiet 3 None
  = (hub_alone, [wsJson hub_alone 3 (Error "invalid-json" NoDetail)])
  ∧ dest (wsJson hub_alone 3 (Error "invalid-json" NoDetail)) = 3%nat.
Proof.
  apply (error_replies_to_sender None hub_alone quiet 3 None
           (wsJson hub_alone 3 (Error "invalid-json" NoDetail))).
  - apply reachable_hub_alone.
  - apply list_elem_of_singleton. reflexivity.
  - exists "invalid-json", NoDetail. reflexivity.
Defined.

Lemma messages_after_teardown_dropped_witness :
  handleMessage (leaveRoom hub_alone "C").1 quiet 3 (Some join_demo)
  = ((leaveRoom hub_alone "C").1, []).
Proof.
  apply (messages_after_teardown_dropped hub_alone quiet 3 "C" (Some join_demo)).
  reflexivity.
Defined.

Lemma join_then_leave_restores_rooms_witness :
  rooms (leaveRoom (handleFirstJoin hub_with_guest quiet guest join_demo).1 "D").1
  = rooms hub_with_guest.
Proof.
  apply (join_then_leave_restores_rooms None hub_with_guest quiet "D" guest
           join_demo "demo" "r1").
  - apply reachable_hub_with_guest.
  - reflexivity.
  - reflexivity.
  - repeat split; reflexivity.
  - reflexivity.
Defined.


Lemma membership_matches_clients_witness :
  (∀ key key' i,
     i ∈ members_of hub_pair key → i ∈ members_of hub_pair key' → key = key')
  ∧ NoDup (members_of hub_pair "demo::r1").
Proof.
  destruct (membership_matches_clients None hub_pair reachable_hub_pair)
    as (_ & Hone & Hnodup).
  split; [exact Hone|apply Hnodup].
Defined.

Lemma joined_client_stays_witness :
  (Accepted 4 "D" = Closed "C"
   ∧ clients (handle hub_alone (Accepted 4 "D")).1 !! "C" = None)
  ∨ (Accepted 4 "D" ≠ Closed "C"
     ∧ ∃ c', clients (handle hub_alone (Accepted 4 "D")).1 !! "C" = Some c'
             ∧ c_id c' = c_id host ∧ c_ws c' = c_ws host
             ∧ c_app c' = Some "demo" ∧ c_room c' = Some "r1").
Proof.
  apply (joined_client_stays None hub_alone (Accepted 4 "D") "C" host "demo" "r1").
  - apply reachable_hub_alone.
  - split; [reflexivity|]. split; [discriminate|].
    assert (wsToClientId hub_alone = {[ 3 := "C" ]}) as -> by reflexivity.
    intros ws [_ Hid]%lookup_singleton_Some. discriminate.
  - reflexivity.
  - reflexivity.
  - reflexivity.
Defined.

Lemma stored_metadata_well_formed_witness :
  presence_ok (Presence "Player100" "lobby").
Proof.
  destruct (stored_metadata_well_formed None hub_pair "D" partner)
    as (_ & _ & Hmeta).
  - apply reachable_hub_pair.
  - reflexivity.
  - apply Hmeta. reflexivity.
Defined.

Lemma accepted_socket_starts_unjoined_witness :
  handleMessage (accept hub_alone 4 "D") quiet 4 (Some shout)
  = (accept hub_alone 4 "D",
     [wsJson (accept hub_alone 4 "D") 4 (Error "join-required-first" NoDetail)])
  ∧ leaveRoom (accept hub_alone 4 "D") "D"
    = (with_wsToClientId hub_alone (<[4%nat := "D"]> (wsToClientId hub_alone)), []).
Proof.
  destruct (accepted_socket_starts_unjoined None hub_alone 4 "D" quiet shout)
    as (_ & Hrefused & Hclosed).
  - apply reachable_hub_alone.
  - split; [reflexivity|]. split; [discriminate|].
    assert (wsToClientId hub_alone = {[ 3 := "C" ]}) as -> by reflexivity.
    intros ws [_ Hid]%lookup_singleton_Some. discriminate.
  - discriminate.
  - split; [apply Hrefused; reflexivity|exact Hclosed].
Defined.



Lemma names_unique_hub_pair : names_unique hub_pair.
Proof.
  apply names_unique_handleMessage;
    [by vm_compute|apply (reachable_wf None), reachable_hub_with_guest|].
  apply names_unique_accept.
  apply names_unique_handleMessage; [by vm_compute| |].
  - apply (reachable_wf None).
    apply (reachable_step None (new_hub None) (Accepted 3 "C"));
      [apply reachable_new|].
    split; [reflexivity|]. split; [discriminate|]. intros ws. discriminate.
  - apply names_unique_accept.
    intros key ms i j ni nj. simpl. by rewrite lookup_empty.
Qed.

Lemma rename_to_own_name_witness :
  ∃ next,
    clients (handleSetMeta hub_pair quiet host rename_same).1 !! "C"
    = Some (set_meta host (Some next))
    ∧ m_name next = "Player".
Proof.
  apply (rename_to_own_name None hub_pair quiet "C" host "demo" "r1"
           (Presence "Player" "lobby") rename_same).
  - apply reachable_hub_pair.
  - apply names_unique_hub_pair.
  - reflexivity.
  - reflexivity.
  - reflexivity.
  - reflexivity.
  - reflexivity.
  - reflexivity.
  - reflexivity.
Defined.

Lemma handleFirstJoin_refusals_witness :
  handleFirstJoin hub_with_guest quiet guest shout
  = (hub_with_guest,
     [wsJson hub_with_guest (c_ws guest) (Error "join-required-first" NoDetail)]).
Proof.
  destruct (handleFirstJoin_refusals hub_with_guest quiet guest shout)
    as [Hother _].
  apply Hother. reflexivity.
Defined.

Lemma maxRoomSize_range_witness :
  (inject_Z (maxRoomSize hub_fractional) <= 5 # 2)%Q
  ∧ (5 # 2 < inject_Z (maxRoomSize hub_fractional + 1))%Q.
Proof.
  destruct (maxRoomSize_range hub_fractional) as (_ & Hfloor & _).
  apply (Hfloor (5 # 2)); [reflexivity|]. unfold Qle. simpl. lia.
Defined.

Lemma node_sends_to_open_sockets_witness :
  Node.listener only_host hub_pair quiet 3 "C" (Some shout) = Some (hub_pair, [])
  ∧ Forall (λ p, all_open (Node.p_dest p) = true)
      [Node.Packet 4 (Node.Plain (Broadcast "C" (VStr "hi")))].
Proof.
  split; [reflexivity|].
  destruct (node_sends_to_open_sockets all_open hub_pair quiet 3 "C"
              (Some shout)) as [Hlistener _].
  apply (Hlistener
           (hub_pair, [Node.Packet 4 (Node.Plain (Broadcast "C" (VStr "hi")))])).
  reflexivity.
Defined.

